(** * CloudWatch batching core of logspout: batches, registry, flush, sweep.

    The development embeds the Go sources of the CloudWatch adapter
    (the [Batch] type with [messageSize], [AddEvent], [messageFits]; the
    [CloudWatchManager] handlers [HandleAttachEvent], [HandleDetachEvent],
    [HandleLogEvent], [submitBatchForID], [sweepForOldBatches]; and the
    stream provisioning functions [groupExists], [createGroup],
    [createStream], [getStreamToken]; the naming functions [getEnvMap],
    [getContext], [renderText], [getLogGroupName], [getLogStreamName];
    and [detectAWSRegionName]) and proves properties of them.

    Modelling decisions.
    - [map[string]*Batch] is a finite map from container IDs to addresses,
      and the [Batch] objects live in a separate store: two names for one
      object ([batch] and [newBatch] in [HandleLogEvent]) are then really
      the same object.  A pointer is an optional address; [None] is [nil].
    - [int64] is [Z] with the wrap-around written out ([int64]).
    - The AWS client, the docker client, the naming templates and the
      wall clock are outside the program: they are the fields of
      [Services], functions on an abstract environment state.
    - Each handler runs under the manager's mutex from its first to its
      last statement; the model runs handlers one at a time.  The mutex
      embedded in every [Batch] is modelled, because one handler can try
      to take the same batch mutex twice.
    - A computation returns a value and a new world, or panics (nil
      dereference), or blocks forever (locking a mutex that is held). *)

From Stdlib Require Import ZArith List Lia Sorting.Sorted Ascii.
From stdpp Require Import gmap strings list fin_maps pretty.

Local Open Scope Z_scope.

(** ** Data *)

Definition error := string.

(** [logs.InputLogEvent{Message, Timestamp}] of the AWS client library. *)
Record InputLogEvent := {
  Message : string;
  Timestamp : Z
}.

(** The parts of the AWS result types that the program reads. *)
Record LogGroup := { LogGroupName : string }.
Record LogStream := { LogStreamName : string; UploadSequenceToken : string }.

(** The host's [Log] and [AttachEvent], with the fields the handlers read:
    [logEvent.ID], [logEvent.Data] and [event.ID]. *)
Record Log := { ID : string; Data : string }.
Record AttachEvent := { EventID : string }.

Definition maxBatchLength : Z := 1000.
Definition maxBatchSize : Z := 32768.

(** [type Batch struct]; [Mutex] is [true] while the mutex is held. *)
Record Batch := {
  GroupName : string;
  StreamName : string;
  Token : string;
  bytes : Z;
  logs : list InputLogEvent;
  Mutex : bool
}.

Definition addr := positive.
Definition ptr := option addr.

(** The composite literal [&Batch{GroupName: g, StreamName: s, Token: t}]:
    the other fields take their zero values. *)
Definition Batch_literal (g s t : string) : Batch :=
  {| GroupName := g; StreamName := s; Token := t;
     bytes := 0; logs := []; Mutex := false |}.

Definition with_logs (b : Batch) (l : list InputLogEvent) : Batch :=
  {| GroupName := GroupName b; StreamName := StreamName b; Token := Token b;
     bytes := bytes b; logs := l; Mutex := Mutex b |}.

Definition with_bytes (b : Batch) (n : Z) : Batch :=
  {| GroupName := GroupName b; StreamName := StreamName b; Token := Token b;
     bytes := n; logs := logs b; Mutex := Mutex b |}.

Definition with_Mutex (b : Batch) (m : bool) : Batch :=
  {| GroupName := GroupName b; StreamName := StreamName b; Token := Token b;
     bytes := bytes b; logs := logs b; Mutex := m |}.

(** Two's complement wrap-around of a 64-bit signed integer. *)
Definition int64 (z : Z) : Z := (z + 2 ^ 63) mod 2 ^ 64 - 2 ^ 63.

Definition max_int64 : Z := 2 ^ 63 - 1.
Definition min_int64 : Z := - 2 ^ 63.

(** What the program writes with [log.Printf], [log.Println] and [debug]. *)
Inductive LogLine :=
| Printed (text : string)
| Debugged (text : string).

(** The remote calls the program makes, as an observer of the AWS side
    sees them, tagged with the container and the batch object they were
    made for.  [Opened] is the result of [getStreamToken] at attach time,
    [Put] a call of [PutLogEvents] with its arguments and its results. *)
Inductive Call :=
| Opened (id group stream token : string) (err : option error)
| Put (id : string) (from : ptr) (events : list InputLogEvent)
      (group stream token next : string) (err : option error).

(** The external collaborators, as functions on an environment state. *)
Record Services (E : Type) := {
  time_Now_UnixNano : E → Z * E;
  getLogGroupName : string → E → string * E;
  getLogStreamName : string → E → string * E;
  DescribeLogGroups : string → E → (list LogGroup * option error) * E;
  CreateLogGroup : string → E → option error * E;
  DescribeLogStreams : string → string → E → (list LogStream * option error) * E;
  CreateLogStream : string → string → E → option error * E;
  PutLogEvents : list InputLogEvent → string → string → string → E →
                 (string * option error) * E
}.

Arguments time_Now_UnixNano {E}.
Arguments getLogGroupName {E}.
Arguments getLogStreamName {E}.
Arguments DescribeLogGroups {E}.
Arguments CreateLogGroup {E}.
Arguments DescribeLogStreams {E}.
Arguments CreateLogStream {E}.
Arguments PutLogEvents {E}.

(** ** Worlds and computations *)

Record World (E : Type) := {
  batches : gmap string addr;   (* cw.batches *)
  heap : gmap addr Batch;       (* the Batch objects allocated so far *)
  env : E;                      (* AWS, docker, clock *)
  output : list LogLine;        (* log lines, most recent first *)
  history : list Call           (* remote calls, most recent first *)
}.

Arguments batches {E}.
Arguments heap {E}.
Arguments env {E}.
Arguments output {E}.
Arguments history {E}.

Inductive outcome (E A : Type) :=
| Ret (a : A) (w : World E)
| Panic
| Blocked.

Arguments Ret {E A}.
Arguments Panic {E A}.
Arguments Blocked {E A}.

Definition M (E A : Type) : Type := World E → outcome E A.

Definition ret {E A} (a : A) : M E A := λ w, Ret a w.

Definition bind {E A B} (m : M E A) (k : A → M E B) : M E B :=
  λ w, match m w with
       | Ret a w' => k a w'
       | Panic => Panic
       | Blocked => Blocked
       end.

Declare Scope go_scope.
Delimit Scope go_scope with go.
Notation "x <- m ; k" := (bind m (λ x, k))
  (at level 100, m at next level, k at level 200, right associativity, only parsing) : go_scope.
Notation "m ;; k" := (bind m (λ _, k))
  (at level 100, k at level 200, right associativity, only parsing) : go_scope.

Section Core.

Context {E : Type} (svc : Services E).

Local Open Scope go_scope.

(** *** Primitive statements *)

(** [cw.batches[ID]]: [nil] when the key is absent. *)
Definition batches_lookup (id : string) : M E ptr :=
  λ w, Ret (batches w !! id) w.

(** [cw.batches[ID] = p], for a non-nil [p]. *)
Definition batches_store (id : string) (a : addr) : M E unit :=
  λ w, Ret tt {| batches := <[id := a]> (batches w); heap := heap w;
                 env := env w; output := output w; history := history w |}.

(** [delete(cw.batches, ID)]. *)
Definition batches_delete (id : string) : M E unit :=
  λ w, Ret tt {| batches := delete id (batches w); heap := heap w;
                 env := env w; output := output w; history := history w |}.

(** Reading through a pointer; [nil] panics.  (An address without an
    object does not occur: addresses come from [new] and objects are
    never freed.) *)
Definition load (p : ptr) : M E Batch :=
  λ w, match p with
       | None => Panic
       | Some a => match heap w !! a with
                   | Some b => Ret b w
                   | None => Panic
                   end
       end.

(** Writing through a pointer that was just read. *)
Definition store (p : ptr) (b : Batch) : M E unit :=
  λ w, match p with
       | None => Panic
       | Some a => Ret tt {| batches := batches w; heap := <[a := b]> (heap w);
                             env := env w; output := output w;
                             history := history w |}
       end.

(** [&Batch{...}]: a new object at an address not used before. *)
Definition new (b : Batch) : M E addr :=
  λ w, let a := fresh (dom (heap w)) in
       Ret a {| batches := batches w; heap := <[a := b]> (heap w);
                env := env w; output := output w; history := history w |}.

(** A call to one of the external services. *)
Definition call {A} (f : E → A * E) : M E A :=
  λ w, let '(a, e) := f (env w) in
       Ret a {| batches := batches w; heap := heap w; env := e;
                output := output w; history := history w |}.

(** Writing a log line. *)
Definition emit (l : LogLine) : M E unit :=
  λ w, Ret tt {| batches := batches w; heap := heap w; env := env w;
                 output := l :: output w; history := history w |}.

(** [log.Printf] and [log.Println] with the text already formatted (an
    [error] is printed as its text, the operands of [Println] are
    separated by spaces). *)
Definition log_Print (text : string) : M E unit := emit (Printed text).

(** The host's [debug], which prints when debugging is switched on; the
    line is recorded with its level. *)
Definition debug (text : string) : M E unit := emit (Debugged text).

(** Recording a remote call in the history; not a statement of the
    program. *)
Definition observe (c : Call) : M E unit :=
  λ w, Ret tt {| batches := batches w; heap := heap w; env := env w;
                 output := output w; history := c :: history w |}.

(** [batch.Lock()]: panics on [nil], blocks when the mutex is held. *)
Definition Lock (p : ptr) : M E unit :=
  b <- load p;
  if Mutex b then (λ _, Blocked) else store p (with_Mutex b true).

(** [batch.Unlock()]: unlocking a free mutex is a fatal error. *)
Definition Unlock (p : ptr) : M E unit :=
  b <- load p;
  if Mutex b then store p (with_Mutex b false) else (λ _, Panic).

(** *** Batch *)

(** [func (batch *Batch) messageSize(dockerLog *Log) int64]; the receiver
    is not read. *)
Definition messageSize (batch : ptr) (dockerLog : Log) : Z :=
  int64 (Z.of_nat (String.length (Data dockerLog)) + 28).

(** [func (batch *Batch) AddEvent(dockerLog *Log)]. *)
Definition AddEvent (batch : ptr) (dockerLog : Log) : M E unit :=
  t <- call (time_Now_UnixNano svc);
  let now := Z.quot t 1000000 in
  b <- load batch;
  store batch (with_logs b (logs b ++ [{| Message := Data dockerLog; Timestamp := now |}]));;
  b <- load batch;
  store batch (with_bytes b (int64 (bytes b + messageSize batch dockerLog))).

(** [func (batch *Batch) messageFits(dockerLog *Log) bool]. *)
Definition messageFits (batch : ptr) (dockerLog : Log) : M E bool :=
  b <- load batch;
  let newSize := int64 (bytes b + messageSize batch dockerLog) in
  b' <- load batch;
  ret ((Z.of_nat (length (logs b')) <? maxBatchLength) && (newSize <=? maxBatchSize)).

(** *** Stream provisioning *)

(** [func (cw *CloudWatchManager) groupExists(groupName string) bool]. *)
Definition groupExists (groupName : string) : M E bool :=
  r <- call (DescribeLogGroups svc groupName);
  match r.2 with
  | Some err => log_Print ("ERROR: listing LogGroups " +:+ err);; ret false
  | None =>
      ret (fold_left
             (λ groupExists group,
                if decide (LogGroupName group = groupName) then true else groupExists)
             r.1 false)
  end.

(** [func (cw *CloudWatchManager) createGroup(groupName string) error]. *)
Definition createGroup (groupName : string) : M E (option error) :=
  exists_ <- groupExists groupName;
  if negb exists_ then
    log_Print ("Creating CloudWatch LogGroup " +:+ groupName);;
    err <- call (CreateLogGroup svc groupName);
    match err with
    | Some e => ret (Some e)
    | None => ret None
    end
  else ret None.

(** The loop [for _, stream := range ... { if ... { return token, nil } }]:
    the token of the first stream with the name, if there is one. *)
Fixpoint first_token (streamName : string) (streams : list LogStream) : option string :=
  match streams with
  | [] => None
  | stream :: rest =>
      if decide (LogStreamName stream = streamName)
      then Some (UploadSequenceToken stream)
      else first_token streamName rest
  end.

(** [func (cw *CloudWatchManager) createStream(streamName, groupName string)
    (string, error)]. *)
Definition createStream (streamName groupName : string) : M E (string * option error) :=
  err <- createGroup groupName;
  match err with
  | Some e => ret (""%string, Some e)
  | None =>
      r <- call (DescribeLogStreams svc groupName streamName);
      match r.2 with
      | Some e =>
          log_Print ("ERROR: listing LogStreams for group %s " +:+ groupName);;
          ret (""%string, Some e)
      | None =>
          let streamExists :=
            fold_left
              (λ streamExists stream,
                 if decide (LogStreamName stream = streamName) then true else streamExists)
              r.1 false in
          if negb streamExists then
            debug ("Creating CloudWatch LogStream " +:+ groupName +:+ "/" +:+ streamName);;
            err <- call (CreateLogStream svc groupName streamName);
            match err with
            | Some e => ret (""%string, Some e)
            | None => ret (""%string, None)
            end
          else
            r <- call (DescribeLogStreams svc groupName streamName);
            match r.2 with
            | Some e =>
                log_Print ("ERROR: listing LogStreams for group %s: %s " +:+ groupName
                           +:+ " " +:+ e);;
                ret (""%string, Some e)
            | None =>
                match first_token streamName r.1 with
                | Some token => ret (token, None)
                | None => ret (""%string, None)
                end
            end
      end
  end.

(** [func (cw *CloudWatchManager) getStreamToken(streamName, groupName string)
    (string, error)]. *)
Definition getStreamToken (streamName groupName : string) : M E (string * option error) :=
  r <- createStream streamName groupName;
  match r.2 with
  | Some e => ret (""%string, Some e)
  | None => ret (r.1, None)
  end.

(** *** The manager *)

(** [func (cw *CloudWatchManager) HandleAttachEvent(event *AttachEvent)]. *)
Definition HandleAttachEvent (event : AttachEvent) : M E unit :=
  group <- call (getLogGroupName svc (EventID event));
  stream <- call (getLogStreamName svc (EventID event));
  p <- batches_lookup (EventID event);
  match p with
  | None =>
      r <- getStreamToken stream group;
      observe (Opened (EventID event) group stream r.1 r.2);;
      match r.2 with
      | Some err =>
          log_Print ("ERROR: getting SequenceUploadToken from stream " +:+ group
                     +:+ "/" +:+ stream +:+ ": " +:+ err)
      | None => ret tt
      end;;
      a <- new (Batch_literal group stream r.1);
      batches_store (EventID event) a
  | Some _ => ret tt
  end.

(** [func (cw *CloudWatchManager) submitBatchForID(ID string) (err error)]. *)
Definition submitBatchForID (id : string) : M E (option error) :=
  batch <- batches_lookup id;
  b <- load batch;
  if (0 <? Z.of_nat (length (logs b))) then
    r <- call (PutLogEvents svc (logs b) (GroupName b) (StreamName b) (Token b));
    observe (Put id batch (logs b) (GroupName b) (StreamName b)
                 (Token b) r.1 r.2);;
    match r.2 with
    | Some err => ret (Some err)
    | None =>
        debug ("Submitted batch of " +:+ pretty (length (logs b)) +:+ " events for container "
               +:+ id +:+ " to " +:+ GroupName b +:+ "/" +:+ StreamName b);;
        a <- new (Batch_literal (GroupName b) (StreamName b) r.1);
        batches_store id a;;
        ret None
    end
  else ret None.

(** [func (cw *CloudWatchManager) HandleDetachEvent(event *AttachEvent)]. *)
Definition HandleDetachEvent (event : AttachEvent) : M E unit :=
  err <- submitBatchForID (EventID event);
  match err with
  | Some e =>
      log_Print ("ERROR: submitting batch for container " +:+ EventID event +:+ ": " +:+ e)
  | None => ret tt
  end;;
  batches_delete (EventID event).

(** [func (cw *CloudWatchManager) HandleLogEvent(target *Target, logEvent *Log)];
    [target] is not used.  The deferred unlocks are written at each point
    where the function returns, last deferred first. *)
Definition HandleLogEvent (logEvent : Log) : M E unit :=
  batch <- batches_lookup (ID logEvent);
  Lock batch;;
  fits <- messageFits batch logEvent;
  if fits then
    AddEvent batch logEvent;;
    Unlock batch
  else
    err <- submitBatchForID (ID logEvent);
    match err with
    | Some e =>
        debug ("ERROR: submitting full batch for container " +:+ ID logEvent +:+ ": " +:+ e);;
        Unlock batch
    | None =>
        newBatch <- batches_lookup (ID logEvent);
        Lock newBatch;;
        AddEvent newBatch logEvent;;
        Unlock newBatch;;
        Unlock batch
    end.

(** [func (cw *CloudWatchManager) sweepForOldBatches()]: the loop over the
    keys of [cw.batches], visited in the order [order] (Go leaves the
    order open); the error of each submission is discarded. *)
Fixpoint sweepForOldBatches (order : list string) : M E unit :=
  match order with
  | [] => ret tt
  | id :: rest => submitBatchForID id;; sweepForOldBatches rest
  end.

(** *** Executions *)

(** [NewCloudWatchManager]: an empty registry. *)
Definition NewCloudWatchManager (e : E) : World E :=
  {| batches := ∅; heap := ∅; env := e; output := []; history := [] |}.

(** What the goroutines of the manager do, one handler at a time. *)
Inductive op :=
| Attach (event : AttachEvent)
| Detach (event : AttachEvent)
| Emit (logEvent : Log)
| Sweep (order : list string).

Definition handle (o : op) : M E unit :=
  match o with
  | Attach event => HandleAttachEvent event
  | Detach event => HandleDetachEvent event
  | Emit logEvent => HandleLogEvent logEvent
  | Sweep order => sweepForOldBatches order
  end.

(** A sweep visits every key of the registry once. *)
Definition enabled (o : op) (w : World E) : Prop :=
  match o with
  | Sweep order => order ≡ₚ (map_to_list (batches w)).*1
  | _ => True
  end.

Inductive steps : World E → list op → World E → Prop :=
| steps_nil w : steps w [] w
| steps_cons w o w' os w'' :
    enabled o w → handle o w = Ret tt w' → steps w' os w'' →
    steps w (o :: os) w''.

End Core.

(** ** Naming and region detection *)

(** *** The functions of Go's [strings] package that the program calls

    The separators and cutsets the program passes are ASCII, for which
    these functions work byte by byte. *)

(** [strings.TrimLeft(s, cutset)] for a cutset of one byte [c]. *)
Fixpoint TrimLeft (s : string) (c : ascii) : string :=
  match s with
  | EmptyString => EmptyString
  | String c' rest => if decide (c' = c) then TrimLeft rest c else s
  end.

(** Whether the byte [c] occurs in [cutset]. *)
Fixpoint contains (cutset : string) (c : ascii) : bool :=
  match cutset with
  | EmptyString => false
  | String c' rest => if decide (c' = c) then true else contains rest c
  end.

(** [strings.TrimRight(s, cutset)]: [s] without its longest suffix of
    bytes of [cutset]. *)
Fixpoint TrimRight (s cutset : string) : string :=
  match s with
  | EmptyString => EmptyString
  | String c rest =>
      match TrimRight rest cutset with
      | EmptyString => if contains cutset c then EmptyString else String c EmptyString
      | kept => String c kept
      end
  end.

(** The text before and the text after the first byte [sep] of [s]. *)
Fixpoint cut_first (s : string) (sep : ascii) : option (string * string) :=
  match s with
  | EmptyString => None
  | String c rest =>
      if decide (c = sep) then Some (EmptyString, rest)
      else match cut_first rest sep with
           | Some (before, after) => Some (String c before, after)
           | None => None
           end
  end.

(** [strings.SplitN(s, sep, 2)] for a separator of one byte. *)
Definition SplitN_2 (s : string) (sep : ascii) : list string :=
  match cut_first s sep with
  | Some (before, after) => [before; after]
  | None => [s]
  end.

(** *** The docker and AWS types the naming functions read *)

Module docker.

Record Config := { Env : list string }.

(** [Config] is a pointer in the client library. *)
Record Container := { Name : string; Config_ : option Config }.

End docker.

Record Region := { RegionName : string; CloudWatchLogsEndpoint : string }.

Module Naming.

Definition DefaultLogGroup : string := "logspout-{{.Host}}".
Definition DefaultLogStream : string := "{{.Host}}-{{.Name}}".

(** [type NamingContext struct]. *)
Record NamingContext := {
  ID : string;
  Host : string;
  Name : string;
  Env : gmap string string
}.

(** What the naming functions and the region detection call outside the
    program: the operating system, the docker client, the host's
    [getopt], the [text/template] package with its parsed templates [T],
    the table [aws.Regions] and the EC2 metadata service.  A call that
    returns a pointer and an error returns one or the other. *)
Record Platform (E T : Type) := {
  os_Hostname : E → (string * option error) * E;
  InspectContainer : string → E → (docker.Container + error) * E;
  getopt : string → string → E → string * E;
  template_Parse : string → T + error;
  template_Execute : T → NamingContext → string * option error;
  aws_Regions : gmap string Region;
  GetMetaData : string → E → (string * option error) * E
}.

Arguments os_Hostname {E T}.
Arguments InspectContainer {E T}.
Arguments getopt {E T}.
Arguments template_Parse {E T}.
Arguments template_Execute {E T}.
Arguments aws_Regions {E T}.
Arguments GetMetaData {E T}.

Section Functions.

Context {E T : Type} (host : Platform E T).

Local Open Scope go_scope.

(** [func (cw *CloudWatchManager) getEnvMap(envStrings []string)
    map[string]string]. *)
Definition getEnvMap (envStrings : list string) : gmap string string :=
  fold_left
    (λ env line,
       let matches := SplitN_2 line "="%char in
       if (1 <? length matches)%nat
       then match matches with
            | key :: value :: _ => <[key := value]> env
            | _ => env
            end
       else env)
    envStrings ∅.

(** [func (cw *CloudWatchManager) getContext(ID string)], which returns a
    pointer to a [NamingContext] and an [error]. *)
Definition getContext (id : string) : M E (option NamingContext * option error) :=
  r <- call (os_Hostname host);
  match r.2 with
  | Some err =>
      log_Print "ERROR: could determine hostname!";;
      ret (None, Some err)
  | None =>
      c <- call (InspectContainer host id);
      match c with
      | inr err =>
          log_Print ("ERROR: could not inspect container " +:+ id);;
          ret (None, Some err)
      | inl container =>
          let name := TrimLeft (docker.Name container) "/"%char in
          match docker.Config_ container with
          | None => λ _, Panic
          | Some config =>
              ret (Some {| ID := id; Host := r.1; Name := name;
                           Env := getEnvMap (docker.Env config) |}, None)
          end
      end
  end.

(** [func (cw *CloudWatchManager) renderText(templateText, ID string) string]. *)
Definition renderText (templateText id : string) : M E string :=
  match template_Parse host templateText with
  | inr _ =>
      log_Print ("WARN: Could not get parse name template: " +:+ templateText);;
      ret "logspout"%string
  | inl tmpl =>
      r <- getContext id;
      match r.2 with
      | Some _ =>
          log_Print ("ERROR: Could not get rendering context for container " +:+ id);;
          ret "logspout"%string
      | None =>
          match r.1 with
          | None => λ _, Panic
          | Some context =>
              let written := template_Execute host tmpl context in
              match written.2 with
              | Some _ =>
                  log_Print ("WARN: Could not get render name template: "
                             +:+ templateText);;
                  ret "logspout"%string
              | None => ret written.1
              end
          end
      end
  end.

(** [func (cw *CloudWatchManager) getLogGroupName(ID string) string]. *)
Definition getLogGroupName (id : string) : M E string :=
  groupNameTemplate <- call (getopt host "LOGSPOUT_GROUP" DefaultLogGroup);
  renderText groupNameTemplate id.

(** [func (cw *CloudWatchManager) getLogStreamName(ID string) string]. *)
Definition getLogStreamName (id : string) : M E string :=
  streamNameTemplate <- call (getopt host "LOGSPOUT_STREAM" DefaultLogStream);
  renderText streamNameTemplate id.

(** The rest of [detectAWSRegionName] after the environment variable. *)
Definition checkEC2Metadata : M E string :=
  log_Print "checking EC2 metadata...";;
  r <- call (GetMetaData host "placement/availability-zone");
  match r.2 with
  | None =>
      log_Print ("running in EC2 availability zone " +:+ r.1);;
      ret (TrimRight r.1 "abcdefghiklmnopqrstuvwxyz")
  | Some _ =>
      log_Print "No EC2 zone detected - defaulting to us-east-1";;
      ret "us-east-1"%string
  end.

(** [func (cw *CloudWatchManager) detectAWSRegionName() string]. *)
Definition detectAWSRegionName : M E string :=
  log_Print "detecting AWS region...";;
  regionName <- call (getopt host "AWS_REGION" "");
  if (0 <? String.length regionName)%nat then
    debug ("using ENV var " +:+ regionName);;
    match aws_Regions host !! regionName with
    | Some _ => ret regionName
    | None =>
        log_Print ("WARN: AWS region " +:+ regionName +:+ " does not exist!");;
        checkEC2Metadata
    end
  else checkEC2Metadata.

End Functions.

End Naming.

(** ** A scripted environment, for running the program on examples *)

Module Sim.

Record state := {
  clock : list Z;                          (* wall-clock readings to come, in ns *)
  puts : list (string * option error);     (* results of PutLogEvents to come *)
  streams : list LogStream                 (* what DescribeLogStreams lists *)
}.

Definition tick (s : state) : Z * state :=
  match clock s with
  | [] => (0, s)
  | t :: rest => (t, {| clock := rest; puts := puts s; streams := streams s |})
  end.

Definition put (s : state) : (string * option error) * state :=
  match puts s with
  | [] => ((""%string, Some "timeout"%string), s)
  | r :: rest => (r, {| clock := clock s; puts := rest; streams := streams s |})
  end.

(** [group] and [stream] name the destination of each container. *)
Definition services (group stream : string → string) : Services state :=
  {| time_Now_UnixNano := tick;
     getLogGroupName := λ id s, (group id, s);
     getLogStreamName := λ id s, (stream id, s);
     DescribeLogGroups := λ _ s, (([], None), s);
     CreateLogGroup := λ _ s, (None, s);
     DescribeLogStreams := λ _ _ s, ((streams s, None), s);
     CreateLogStream := λ _ _ s, (None, s);
     PutLogEvents := λ _ _ _ _ s, put s |}.

(** Each container has a stream of its own, as with the default templates. *)
Definition own : Services state :=
  services (λ _, "logspout-host"%string) (λ id, ("host-" +:+ id)%string).

(** Every container writes to the same stream, as with constant templates. *)
Definition shared : Services state :=
  services (λ _, "g"%string) (λ _, "s"%string).

(** A new manager, with the clock readings [c] and the submission results
    [p] to come. *)
Definition start (c : list Z) (p : list (string * option error)) : World state :=
  NewCloudWatchManager {| clock := c; puts := p; streams := [] |}.

End Sim.

(** ** Concrete worlds for the examples *)

Module Examples.

(** A payload of [n] bytes. *)
Definition payload (n : N) : string := N.iter n (String (Ascii.ascii_of_nat 97)) ""%string.

(** A log line of [n] bytes from container [id]. *)
Definition line (id : string) (n : N) : Log := {| ID := id; Data := payload n |}.

(** The attach or detach event of container [id]. *)
Definition container (id : string) : AttachEvent := {| EventID := id |}.

(** One container with a batch holding one event of 3 bytes, stamped at
    5 ms; the clock reads 7 ms next; the next submission is answered by
    [r]. *)
Definition one_event (r : string * option error) : World Sim.state :=
  {| batches := {[ "c1"%string := 1%positive ]};
     heap := {[ 1%positive :=
                  {| GroupName := "g"; StreamName := "s"; Token := "T0";
                     bytes := 31;
                     logs := [{| Message := "aaa"; Timestamp := 5 |}];
                     Mutex := false |} ]};
     env := {| Sim.clock := [7000000]; Sim.puts := [r]; Sim.streams := [] |};
     output := [];
     history := [Opened "c1" "g" "s" "T0" None] |}.

(** The batch of [one_event]. *)
Definition the_batch : Batch :=
  {| GroupName := "g"; StreamName := "s"; Token := "T0"; bytes := 31;
     logs := [{| Message := "aaa"; Timestamp := 5 |}]; Mutex := false |}.

End Examples.

(** ** A scripted platform, for running the naming functions on examples *)

Module SimHost.

(** The host is called [host]; [inspect] answers [InspectContainer];
    the environment variable [AWS_REGION] holds [region] and the other
    variables are not set; every template text parses, and renders as
    the host name, a dash and the container name; [zone] answers the
    metadata request. *)
Definition platform (inspect : string → docker.Container + error)
    (region : string) (zone : string * option error) :
    Naming.Platform Sim.state string :=
  {| Naming.os_Hostname := λ s, (("host"%string, None), s);
     Naming.InspectContainer := λ id s, (inspect id, s);
     Naming.getopt := λ name dfault s,
       (if decide (name = "AWS_REGION"%string) then region else dfault, s);
     Naming.template_Parse := inl;
     Naming.template_Execute := λ _ context,
       ((Naming.Host context +:+ "-" +:+ Naming.Name context)%string, None);
     Naming.aws_Regions :=
       {[ "us-east-1"%string :=
            {| RegionName := "us-east-1";
               CloudWatchLogsEndpoint := "https://logs.us-east-1.amazonaws.com" |} ]};
     Naming.GetMetaData := λ _ s, (zone, s) |}.

(** A docker daemon that knows the container [web]. *)
Definition inspect_web (id : string) : docker.Container + error :=
  if decide (id = "web"%string)
  then inl {| docker.Name := "/web";
              docker.Config_ := Some {| docker.Env := ["PATH=/bin"; "OPTS=a=b"; "EMPTY"]%string |} |}
  else inr "no such container"%string.

(** A docker daemon that cannot be reached. *)
Definition inspect_down (id : string) : docker.Container + error :=
  inr "cannot connect"%string.

End SimHost.

(** ** More concrete worlds *)

Module MoreExamples.

(** A remote service that accepts every submission and answers with the
    token [T]; the rest is as in [Sim.own]. *)
Definition accepting : Services Sim.state :=
  {| time_Now_UnixNano := Sim.tick;
     getLogGroupName := λ _ s, ("logspout-host"%string, s);
     getLogStreamName := λ id s, (("host-" +:+ id)%string, s);
     DescribeLogGroups := λ _ s, (([], None), s);
     CreateLogGroup := λ _ s, (None, s);
     DescribeLogStreams := λ _ _ s, ((Sim.streams s, None), s);
     CreateLogStream := λ _ _ s, (None, s);
     PutLogEvents := λ _ _ _ _ s, (("T"%string, None), s) |}.

(** One container that has just been attached: its batch holds no
    event. *)
Definition attached : World Sim.state :=
  {| batches := {[ "c1"%string := 1%positive ]};
     heap := {[ 1%positive := Batch_literal "g" "s" "T0" ]};
     env := {| Sim.clock := [7000000]; Sim.puts := []; Sim.streams := [] |};
     output := [];
     history := [Opened "c1" "g" "s" "T0" None] |}.

(** A new manager whose remote service already has the stream of
    container [c1], with the upload sequence token [T9]. *)
Definition with_stream : World Sim.state :=
  NewCloudWatchManager
    {| Sim.clock := []; Sim.puts := [];
       Sim.streams := [{| LogStreamName := "host-c1"; UploadSequenceToken := "T9" |}] |}.

End MoreExamples.

(** ** Vocabulary of the properties *)

(** The condition [messageFits] computes from the fields of the batch. *)
Definition fits (b : Batch) (dockerLog : Log) : bool :=
  (Z.of_nat (length (logs b)) <? maxBatchLength)
  && (int64 (bytes b + messageSize None dockerLog) <=? maxBatchSize).

(** The batch [AddEvent] leaves behind when the clock reads [t]. *)
Definition appended (b : Batch) (dockerLog : Log) (t : Z) : Batch :=
  with_bytes
    (with_logs b (logs b ++ [{| Message := Data dockerLog;
                                Timestamp := Z.quot t 1000000 |}]))
    (int64 (bytes b + messageSize None dockerLog)).

(** The token the next submission for container [id] has to carry, read
    off the calls made so far: the token returned by the most recent
    successful [PutLogEvents] made for [id], or the token of the stream
    opening when no submission for [id] has succeeded since. *)
Fixpoint expected (id : string) (h : list Call) : option string :=
  match h with
  | [] => None
  | Opened id' _ _ token _ :: h' =>
      if decide (id' = id) then Some token else expected id h'
  | Put id' _ _ _ _ _ next err :: h' =>
      if decide (id' = id)
      then match err with None => Some next | Some _ => expected id h' end
      else expected id h'
  end.

(** Every submission carried the token expected for its container. *)
Fixpoint chained (h : list Call) : Prop :=
  match h with
  | [] => True
  | Opened _ _ _ _ _ :: h' => chained h'
  | Put id _ _ _ _ token _ _ :: h' => expected id h' = Some token ∧ chained h'
  end.

(** The same chain read per destination instead of per container: a
    submission carries the token returned by the most recent successful
    submission to the same group and stream, or no submission of its
    container has succeeded since the stream was opened for it and it
    carries the token of that opening.  Submissions that failed returned
    no token and do not count as a link of the chain. *)
Fixpoint returned (group stream : string) (h : list Call) : option string :=
  match h with
  | [] => None
  | Opened _ _ _ _ _ :: h' => returned group stream h'
  | Put _ _ _ group' stream' _ next err :: h' =>
      if decide (group' = group ∧ stream' = stream)
      then match err with None => Some next | Some _ => returned group stream h' end
      else returned group stream h'
  end.

Fixpoint opening (id : string) (h : list Call) : option string :=
  match h with
  | [] => None
  | Opened id' _ _ token _ :: h' =>
      if decide (id' = id) then Some token else opening id h'
  | Put id' _ _ _ _ _ _ err :: h' =>
      if decide (id' = id)
      then match err with None => None | Some _ => opening id h' end
      else opening id h'
  end.

Fixpoint chained_per_destination (h : list Call) : Prop :=
  match h with
  | [] => True
  | Opened _ _ _ _ _ :: h' => chained_per_destination h'
  | Put id _ _ group stream token _ _ :: h' =>
      (returned group stream h' = Some token ∨ opening id h' = Some token)
      ∧ chained_per_destination h'
  end.

(** The batch object a call was made for. *)
Definition from_batch (c : Call) : ptr :=
  match c with
  | Put _ from _ _ _ _ _ _ => from
  | Opened _ _ _ _ _ => None
  end.

(** No element of the list is smaller than an element before it. *)
Definition nondecreasing (l : list Z) : Prop :=
  ∀ (i j : nat) x y, (i ≤ j)%nat → l !! i = Some x → l !! j = Some y → x <= y.

(** The byte count of a list of stored events, as [messageSize] counts
    each of them, without wrap-around. *)
Definition accounted (l : list InputLogEvent) : Z :=
  foldr (λ x n, Z.of_nat (String.length (Message x)) + 28 + n) 0 l.

Section Vocabulary.

Context {E : Type}.

(** The byte total of every batch is the byte count of its events, as a
    64-bit integer. *)
Definition bytes_accounted (w : World E) : Prop :=
  ∀ a b, heap w !! a = Some b → bytes b = int64 (accounted (logs b)).

(** A computation that always returns, and changes at most the environment
    and the log output. *)
Definition quiet {A} (m : M E A) : Prop :=
  ∀ w, ∃ a e out,
    m w = Ret a {| batches := batches w; heap := heap w; env := e;
                   output := out; history := history w |}.

(** Every handler that returns is a sequence of the following moves: a
    change of environment and log output only; a flush of a non-empty
    batch that fails; one that succeeds; an append to a registered batch
    that either accepts the event or is empty; the installation of a batch
    for a new container; the removal of an entry. *)
Inductive move (w : World E) : World E → Prop :=
| move_env e out :
    move w {| batches := batches w; heap := heap w; env := e; output := out;
              history := history w |}
| move_flush_failure id a b next err e out :
    batches w !! id = Some a → heap w !! a = Some b → logs b ≠ [] →
    move w {| batches := batches w; heap := heap w; env := e; output := out;
              history := Put id (Some a) (logs b) (GroupName b) (StreamName b)
                             (Token b) next (Some err) :: history w |}
| move_flush_success id a b next e out :
    batches w !! id = Some a → heap w !! a = Some b → logs b ≠ [] →
    move w {| batches := <[id := fresh (dom (heap w))]> (batches w);
              heap := <[fresh (dom (heap w)) :=
                          Batch_literal (GroupName b) (StreamName b) next]> (heap w);
              env := e; output := out;
              history := Put id (Some a) (logs b) (GroupName b) (StreamName b)
                             (Token b) next None :: history w |}
| move_append logEvent a b t e out :
    batches w !! ID logEvent = Some a → heap w !! a = Some b →
    fits b logEvent = true ∨ (logs b = [] ∧ bytes b = 0) →
    move w {| batches := batches w; heap := <[a := appended b logEvent t]> (heap w);
              env := e; output := out; history := history w |}
| move_open id group stream token err e out :
    batches w !! id = None →
    move w {| batches := <[id := fresh (dom (heap w))]> (batches w);
              heap := <[fresh (dom (heap w)) := Batch_literal group stream token]> (heap w);
              env := e; output := out;
              history := Opened id group stream token err :: history w |}
| move_delete id e out :
    move w {| batches := delete id (batches w); heap := heap w; env := e;
              output := out; history := history w |}.

(** Well-formed worlds: every registered pointer leads to a batch, no
    batch mutex is held between handlers, and no batch is registered for
    two containers. *)
Record wf (w : World E) : Prop := {
  wf_live : ∀ id a, batches w !! id = Some a → is_Some (heap w !! a);
  wf_unlocked : ∀ a b, heap w !! a = Some b → Mutex b = false;
  wf_injective : ∀ id1 id2 a,
      batches w !! id1 = Some a → batches w !! id2 = Some a → id1 = id2
}.

(** The token of every registered batch is the expected one. *)
Definition tokens_agree (w : World E) : Prop :=
  ∀ id a b, batches w !! id = Some a → heap w !! a = Some b →
            expected id (history w) = Some (Token b).

Definition chain_invariant (w : World E) : Prop :=
  wf w ∧ tokens_agree w ∧ chained (history w).

(** A batch that exists but that the registry no longer leads to. *)
Definition retired (a : addr) (w : World E) : Prop :=
  is_Some (heap w !! a) ∧ ∀ id, batches w !! id ≠ Some a.

(** [h'] extends [h] by calls none of which was made for batch [a]. *)
Definition never_from (a : addr) (h h' : list Call) : Prop :=
  ∃ new, h' = new ++ h ∧ Forall (λ c, from_batch c ≠ Some a) new.

Definition count_bounded (w : World E) : Prop :=
  ∀ a b, heap w !! a = Some b → Z.of_nat (length (logs b)) <= maxBatchLength.

Definition bytes_bounded (w : World E) : Prop :=
  ∀ a b, heap w !! a = Some b → bytes b <= maxBatchSize.

(** The batch of container [id] holds no event. *)
Definition flushed (id : string) (w : World E) : Prop :=
  ∀ a b, batches w !! id = Some a → heap w !! a = Some b → logs b = [].

End Vocabulary.

(** ** Basic facts *)

Arguments int64 : simpl never.
Arguments messageSize : simpl never.
Arguments String.append : simpl never.
Arguments pretty : simpl never.
Arguments fresh : simpl never.

Lemma int64_small z : min_int64 <= z <= max_int64 → int64 z = z.
Proof.
  unfold int64, min_int64, max_int64. intros Hz.
  rewrite Z.mod_small by lia. lia.
Qed.

Lemma int64_range z : min_int64 <= int64 z <= max_int64.
Proof.
  unfold int64, min_int64, max_int64.
  pose proof (Z.mod_pos_bound (z + 2 ^ 63) (2 ^ 64) ltac:(lia)). lia.
Qed.

Lemma unlock_lock b : Mutex b = false → with_Mutex (with_Mutex b true) false = b.
Proof. destruct b; simpl; intros ->; reflexivity. Qed.

Lemma nonempty_length (l : list InputLogEvent) :
  (0 <? Z.of_nat (length l)) = true ↔ l ≠ [].
Proof.
  destruct l; simpl; split; done.
Qed.

Lemma empty_length (l : list InputLogEvent) :
  l = [] → (0 <? Z.of_nat (length l)) = false.
Proof. intros ->. reflexivity. Qed.

Section Flush.

Context {E : Type} (svc : Services E).

(** The four ways [submitBatchForID] can go. *)

Lemma submit_unregistered id (w : World E) :
  batches w !! id = None → submitBatchForID svc id w = Panic.
Proof.
  intros H. unfold submitBatchForID, bind, batches_lookup, load. rewrite H. reflexivity.
Qed.

Lemma submit_empty id a b (w : World E) :
  batches w !! id = Some a → heap w !! a = Some b → logs b = [] →
  submitBatchForID svc id w = Ret None w.
Proof.
  intros Hid Ha Hl. unfold submitBatchForID, bind, batches_lookup, load.
  rewrite Hid, Ha, (empty_length _ Hl). reflexivity.
Qed.

Lemma submit_failure id a b next err e' (w : World E) :
  batches w !! id = Some a → heap w !! a = Some b → logs b ≠ [] →
  PutLogEvents svc (logs b) (GroupName b) (StreamName b) (Token b) (env w)
    = ((next, Some err), e') →
  submitBatchForID svc id w =
    Ret (Some err)
        {| batches := batches w; heap := heap w; env := e'; output := output w;
           history := Put id (Some a) (logs b) (GroupName b) (StreamName b) (Token b)
                          next (Some err) :: history w |}.
Proof.
  intros Hid Ha Hl Hput. apply nonempty_length in Hl.
  unfold submitBatchForID, bind, batches_lookup, load, call, observe.
  rewrite Hid, Ha, Hl. simpl. rewrite Hput. reflexivity.
Qed.

Lemma submit_success id a b next e' (w : World E) :
  batches w !! id = Some a → heap w !! a = Some b → logs b ≠ [] →
  PutLogEvents svc (logs b) (GroupName b) (StreamName b) (Token b) (env w)
    = ((next, None), e') →
  submitBatchForID svc id w =
    Ret None
        {| batches := <[id := fresh (dom (heap w))]> (batches w);
           heap := <[fresh (dom (heap w)) :=
                       Batch_literal (GroupName b) (StreamName b) next]> (heap w);
           env := e';
           output := Debugged ("Submitted batch of " +:+ pretty (length (logs b))
                               +:+ " events for container " +:+ id +:+ " to "
                               +:+ GroupName b +:+ "/" +:+ StreamName b) :: output w;
           history := Put id (Some a) (logs b) (GroupName b) (StreamName b) (Token b)
                          next None :: history w |}.
Proof.
  intros Hid Ha Hl Hput. apply nonempty_length in Hl.
  unfold submitBatchForID, bind, batches_lookup, load, call, observe.
  rewrite Hid, Ha, Hl. simpl. rewrite Hput. reflexivity.
Qed.

End Flush.

(** ** The batch operations as functions on a batch value *)

Section BatchRuns.

Context {E : Type} (svc : Services E).

Lemma messageFits_run a b dockerLog (w : World E) :
  heap w !! a = Some b →
  messageFits (Some a) dockerLog w = Ret (fits b dockerLog) w.
Proof.
  intros Ha. unfold messageFits, bind, load, ret. rewrite Ha. simpl. rewrite Ha.
  reflexivity.
Qed.

Lemma messageFits_nil dockerLog (w : World E) :
  messageFits None dockerLog w = Panic.
Proof. reflexivity. Qed.

Lemma AddEvent_run a b dockerLog t e' (w : World E) :
  heap w !! a = Some b → time_Now_UnixNano svc (env w) = (t, e') →
  AddEvent svc (Some a) dockerLog w =
    Ret tt {| batches := batches w; heap := <[a := appended b dockerLog t]> (heap w);
              env := e'; output := output w; history := history w |}.
Proof.
  intros Ha Ht. unfold AddEvent, bind, call, load, store. rewrite Ht. simpl.
  rewrite Ha. simpl. rewrite lookup_insert_eq. simpl. rewrite insert_insert_eq.
  reflexivity.
Qed.

Lemma Lock_run a b (w : World E) :
  heap w !! a = Some b → Mutex b = false →
  Lock (Some a) w =
    Ret tt {| batches := batches w; heap := <[a := with_Mutex b true]> (heap w);
              env := env w; output := output w; history := history w |}.
Proof.
  intros Ha Hm. unfold Lock, bind, load, store. rewrite Ha, Hm. reflexivity.
Qed.

Lemma Lock_held a b (w : World E) :
  heap w !! a = Some b → Mutex b = true → Lock (Some a) w = Blocked.
Proof.
  intros Ha Hm. unfold Lock, bind, load, store. rewrite Ha, Hm. reflexivity.
Qed.

Lemma Unlock_run a b (w : World E) :
  heap w !! a = Some b → Mutex b = true →
  Unlock (Some a) w =
    Ret tt {| batches := batches w; heap := <[a := with_Mutex b false]> (heap w);
              env := env w; output := output w; history := history w |}.
Proof.
  intros Ha Hm. unfold Unlock, bind, load, store. rewrite Ha, Hm. reflexivity.
Qed.

End BatchRuns.

Section Sequencing.

Context {E A B : Type}.

Lemma bind_Ret (m : M E A) (k : A → M E B) w a w' :
  m w = Ret a w' → bind m k w = k a w'.
Proof. unfold bind. intros ->. reflexivity. Qed.

Lemma bind_Panic (m : M E A) (k : A → M E B) w :
  m w = Panic → bind m k w = Panic.
Proof. unfold bind. intros ->. reflexivity. Qed.

Lemma bind_Blocked (m : M E A) (k : A → M E B) w :
  m w = Blocked → bind m k w = Blocked.
Proof. unfold bind. intros ->. reflexivity. Qed.

End Sequencing.

Lemma fits_locked b dockerLog : fits (with_Mutex b true) dockerLog = fits b dockerLog.
Proof. reflexivity. Qed.

Lemma appended_unlock b dockerLog t :
  Mutex b = false →
  with_Mutex (appended (with_Mutex b true) dockerLog t) false = appended b dockerLog t.
Proof. destruct b; simpl; intros ->; reflexivity. Qed.

Lemma fresh_dom_insert (h : gmap addr Batch) a b b' :
  h !! a = Some b → fresh (dom (<[a := b']> h)) = fresh (dom h).
Proof.
  intros Ha. f_equal. rewrite dom_insert_L.
  apply subseteq_union_1_L, singleton_subseteq_l, elem_of_dom. eauto.
Qed.

Lemma fresh_heap (h : gmap addr Batch) : h !! fresh (dom h) = None.
Proof. apply not_elem_of_dom, is_fresh. Qed.

Lemma fresh_ne (h : gmap addr Batch) a b : h !! a = Some b → fresh (dom h) ≠ a.
Proof. intros Ha Heq. rewrite <- Heq, fresh_heap in Ha. discriminate. Qed.

Section LogEvent.

Context {E : Type} (svc : Services E).

(** The ways [HandleLogEvent] can go. *)

Lemma HandleLogEvent_unregistered logEvent (w : World E) :
  batches w !! ID logEvent = None → HandleLogEvent svc logEvent w = Panic.
Proof.
  intros Hid. unfold HandleLogEvent, bind, batches_lookup. rewrite Hid. reflexivity.
Qed.

Lemma HandleLogEvent_fits logEvent a b t e' (w : World E) :
  batches w !! ID logEvent = Some a → heap w !! a = Some b → Mutex b = false →
  fits b logEvent = true →
  time_Now_UnixNano svc (env w) = (t, e') →
  HandleLogEvent svc logEvent w =
    Ret tt {| batches := batches w; heap := <[a := appended b logEvent t]> (heap w);
              env := e'; output := output w; history := history w |}.
Proof.
  intros Hid Ha Hm Hfit Ht. unfold HandleLogEvent.
  rewrite (bind_Ret _ _ w (Some a) w) by (unfold batches_lookup; by rewrite Hid).
  erewrite bind_Ret by (by apply Lock_run).
  erewrite bind_Ret by (apply messageFits_run; simpl; apply lookup_insert_eq).
  rewrite fits_locked, Hfit.
  erewrite bind_Ret by (by eapply AddEvent_run; simpl; [apply lookup_insert_eq|]).
  etrans; [eapply Unlock_run; simpl; [apply lookup_insert_eq | reflexivity] |].
  simpl. rewrite !insert_insert_eq, appended_unlock by done. reflexivity.
Qed.

Lemma HandleLogEvent_blocked logEvent a b (w : World E) :
  batches w !! ID logEvent = Some a → heap w !! a = Some b → Mutex b = false →
  fits b logEvent = false → logs b = [] →
  HandleLogEvent svc logEvent w = Blocked.
Proof.
  intros Hid Ha Hm Hfit Hl. unfold HandleLogEvent.
  rewrite (bind_Ret _ _ w (Some a) w) by (unfold batches_lookup; by rewrite Hid).
  erewrite bind_Ret by (by apply Lock_run).
  erewrite bind_Ret by (apply messageFits_run; simpl; apply lookup_insert_eq).
  rewrite fits_locked, Hfit.
  erewrite bind_Ret
    by (eapply submit_empty; simpl; [done | apply lookup_insert_eq | done]).
  cbv beta iota.
  rewrite (bind_Ret _ _ _ (Some a) _) by (unfold batches_lookup; simpl; by rewrite Hid).
  apply bind_Blocked. eapply Lock_held; simpl; [apply lookup_insert_eq | done].
Qed.

Lemma HandleLogEvent_failure logEvent a b next err e' (w : World E) :
  batches w !! ID logEvent = Some a → heap w !! a = Some b → Mutex b = false →
  fits b logEvent = false → logs b ≠ [] →
  PutLogEvents svc (logs b) (GroupName b) (StreamName b) (Token b) (env w)
    = ((next, Some err), e') →
  HandleLogEvent svc logEvent w =
    Ret tt {| batches := batches w; heap := heap w; env := e';
              output := Debugged ("ERROR: submitting full batch for container "
                                  +:+ ID logEvent +:+ ": " +:+ err) :: output w;
              history := Put (ID logEvent) (Some a) (logs b) (GroupName b)
                             (StreamName b) (Token b) next (Some err) :: history w |}.
Proof.
  intros Hid Ha Hm Hfit Hl Hput. unfold HandleLogEvent.
  rewrite (bind_Ret _ _ w (Some a) w) by (unfold batches_lookup; by rewrite Hid).
  erewrite bind_Ret by (by apply Lock_run).
  erewrite bind_Ret by (apply messageFits_run; simpl; apply lookup_insert_eq).
  rewrite fits_locked, Hfit.
  erewrite bind_Ret
    by (eapply submit_failure; simpl; [done | apply lookup_insert_eq | done | exact Hput]).
  unfold debug, emit, bind. simpl.
  etrans; [eapply Unlock_run; simpl; [apply lookup_insert_eq | reflexivity] |].
  simpl. rewrite insert_insert_eq, unlock_lock, insert_id by done. reflexivity.
Qed.

Lemma HandleLogEvent_success logEvent a b next e' t e'' (w : World E) :
  batches w !! ID logEvent = Some a → heap w !! a = Some b → Mutex b = false →
  fits b logEvent = false → logs b ≠ [] →
  PutLogEvents svc (logs b) (GroupName b) (StreamName b) (Token b) (env w)
    = ((next, None), e') →
  time_Now_UnixNano svc e' = (t, e'') →
  HandleLogEvent svc logEvent w =
    Ret tt {| batches := <[ID logEvent := fresh (dom (heap w))]> (batches w);
              heap := <[fresh (dom (heap w)) :=
                          appended (Batch_literal (GroupName b) (StreamName b) next)
                                   logEvent t]> (heap w);
              env := e'';
              output := Debugged ("Submitted batch of " +:+ pretty (length (logs b))
                                  +:+ " events for container " +:+ ID logEvent +:+ " to "
                                  +:+ GroupName b +:+ "/" +:+ StreamName b) :: output w;
              history := Put (ID logEvent) (Some a) (logs b) (GroupName b)
                             (StreamName b) (Token b) next None :: history w |}.
Proof.
  intros Hid Ha Hm Hfit Hl Hput Ht. unfold HandleLogEvent.
  rewrite (bind_Ret _ _ w (Some a) w) by (unfold batches_lookup; by rewrite Hid).
  erewrite bind_Ret by (by apply Lock_run).
  erewrite bind_Ret by (apply messageFits_run; simpl; apply lookup_insert_eq).
  rewrite fits_locked, Hfit.
  erewrite bind_Ret
    by (eapply submit_success; simpl; [done | apply lookup_insert_eq | done | exact Hput]).
  simpl. rewrite (fresh_dom_insert _ _ _ _ Ha).
  set (a' := fresh (dom (heap w))).
  assert (Hne : a' ≠ a) by (by eapply fresh_ne).
  rewrite (bind_Ret _ _ _ (Some a') _)
    by (unfold batches_lookup; simpl; by rewrite lookup_insert_eq).
  erewrite bind_Ret by (apply Lock_run; simpl; [apply lookup_insert_eq | done]).
  erewrite bind_Ret by (by eapply AddEvent_run; simpl; [apply lookup_insert_eq|]).
  erewrite bind_Ret by (apply Unlock_run; simpl; [apply lookup_insert_eq | done]).
  etrans; [eapply Unlock_run; simpl;
           [rewrite !lookup_insert_ne by done; apply lookup_insert_eq | done] |].
  simpl. f_equal. f_equal.
  rewrite !insert_insert_eq. rewrite (insert_insert_ne _ a a') by done.
  rewrite insert_insert_eq, unlock_lock, (insert_id _ a b) by done.
  reflexivity.
Qed.

End LogEvent.

(** ** Provisioning touches neither the registry nor the batches *)

Section Provisioning.

Context {E : Type} (svc : Services E).

Lemma quiet_ret {A} (a : A) : quiet (E := E) (ret a).
Proof. intros [bs h e out hs]. by exists a, e, out. Qed.

Lemma quiet_bind {A B} (m : M E A) (k : A → M E B) :
  quiet m → (∀ a, quiet (k a)) → quiet (bind m k).
Proof.
  intros Hm Hk w. destruct (Hm w) as (a & e & out & Hw).
  unfold bind. rewrite Hw.
  destruct (Hk a {| batches := batches w; heap := heap w; env := e;
                    output := out; history := history w |})
    as (c & e' & out' & Hw').
  rewrite Hw'. simpl. by exists c, e', out'.
Qed.

Lemma quiet_call {A} (f : E → A * E) : quiet (call f).
Proof.
  intros w. unfold call. destruct (f (env w)) as [a e]. by exists a, e, (output w).
Qed.

Lemma quiet_emit l : quiet (E := E) (emit l).
Proof. intros w. by exists tt, (env w), (l :: output w). Qed.

Create HintDb quiet.

Ltac quiet :=
  repeat first
    [ solve [auto with quiet nocore]
    | apply quiet_ret | apply quiet_call | apply quiet_emit
    | apply quiet_bind; [| intros ?]
    | progress cbv zeta
    | match goal with
      | |- quiet (match ?x with _ => _ end) => destruct x
      end ].

Lemma quiet_groupExists groupName : quiet (groupExists svc groupName).
Proof. unfold groupExists, log_Print. quiet. Qed.

#[local] Hint Resolve quiet_groupExists : quiet.

Lemma quiet_createGroup groupName : quiet (createGroup svc groupName).
Proof. unfold createGroup, log_Print. quiet. Qed.

#[local] Hint Resolve quiet_createGroup : quiet.

Lemma quiet_createStream streamName groupName :
  quiet (createStream svc streamName groupName).
Proof.
  unfold createStream, log_Print, debug. quiet.
Qed.

#[local] Hint Resolve quiet_createStream : quiet.

Lemma quiet_getStreamToken streamName groupName :
  quiet (getStreamToken svc streamName groupName).
Proof. unfold getStreamToken. quiet. Qed.

(** The two ways [HandleAttachEvent] can go. *)

Lemma HandleAttachEvent_registered event a (w : World E) :
  batches w !! EventID event = Some a →
  ∃ e, HandleAttachEvent svc event w =
         Ret tt {| batches := batches w; heap := heap w; env := e;
                   output := output w; history := history w |}.
Proof.
  intros Hid. unfold HandleAttachEvent, bind, call, batches_lookup.
  destruct (getLogGroupName svc (EventID event) (env w)) as [group e1]. simpl.
  destruct (getLogStreamName svc (EventID event) e1) as [stream e2]. simpl.
  rewrite Hid. by exists e2.
Qed.

Lemma HandleAttachEvent_unregistered event (w : World E) :
  batches w !! EventID event = None →
  ∃ group stream token err e out,
    HandleAttachEvent svc event w =
      Ret tt {| batches := <[EventID event := fresh (dom (heap w))]> (batches w);
                heap := <[fresh (dom (heap w)) := Batch_literal group stream token]> (heap w);
                env := e; output := out;
                history := Opened (EventID event) group stream token err :: history w |}.
Proof.
  intros Hid. unfold HandleAttachEvent, bind at 1 2 3, call, batches_lookup.
  destruct (getLogGroupName svc (EventID event) (env w)) as [group e1]. simpl.
  destruct (getLogStreamName svc (EventID event) e1) as [stream e2]. simpl.
  rewrite Hid.
  destruct (quiet_getStreamToken stream group
              {| batches := batches w; heap := heap w; env := e2;
                 output := output w; history := history w |})
    as ([token err] & e3 & out & Hrun).
  simpl in Hrun. rewrite (bind_Ret _ _ _ _ _ Hrun).
  unfold observe, bind, log_Print, emit, ret, new, batches_store. simpl.
  destruct err as [err|]; simpl; eauto 10.
Qed.

End Provisioning.

(** ** Handlers as sequences of elementary moves *)

Section Moves.

Context {E : Type} (svc : Services E).

Lemma wf_New (e : E) : wf (NewCloudWatchManager e).
Proof. split; simpl; intros *; rewrite ?lookup_empty; done. Qed.

Lemma registered_not_fresh (w : World E) id a :
  wf w → batches w !! id = Some a → a ≠ fresh (dom (heap w)).
Proof.
  intros Hwf Hid Heq. destruct (wf_live w Hwf id a Hid) as [b Hb].
  rewrite Heq, fresh_heap in Hb. discriminate.
Qed.

Lemma wf_install (w : World E) id b (e : E) out hs :
  wf w → Mutex b = false →
  wf {| batches := <[id := fresh (dom (heap w))]> (batches w);
        heap := <[fresh (dom (heap w)) := b]> (heap w);
        env := e; output := out; history := hs |}.
Proof.
  intros Hwf Hm. split; simpl.
  - intros id' a. rewrite lookup_insert. case_decide.
    + intros [= <-]. rewrite lookup_insert_eq. eauto.
    + intros Hid. rewrite lookup_insert_ne
        by (intros Heq; by eapply registered_not_fresh).
      by eapply wf_live.
  - intros a b'. rewrite lookup_insert. case_decide.
    + by intros [= <-].
    + by eapply wf_unlocked.
  - intros id1 id2 a. rewrite !lookup_insert.
    repeat case_decide; subst; try done.
    + intros [= <-] Hid. by destruct (registered_not_fresh w id2 _ Hwf Hid).
    + intros Hid [= <-]. by destruct (registered_not_fresh w id1 _ Hwf Hid).
    + by eapply wf_injective.
Qed.

Lemma wf_move (w w' : World E) : wf w → move w w' → wf w'.
Proof.
  intros Hwf Hmove. destruct Hmove.
  - destruct Hwf; by split.
  - destruct Hwf; by split.
  - by apply wf_install.
  - split; simpl.
    + intros id' a'. rewrite lookup_insert. case_decide; [eauto |].
      by eapply wf_live.
    + intros a' b'. rewrite lookup_insert. case_decide.
      * intros [= <-]. simpl. by eapply wf_unlocked.
      * by eapply wf_unlocked.
    + by eapply wf_injective.
  - by apply wf_install.
  - split; simpl.
    + intros id' a'. rewrite lookup_delete. case_decide; [done |].
      by eapply wf_live.
    + by eapply wf_unlocked.
    + intros id1 id2 a'. rewrite !lookup_delete. repeat case_decide; try done.
      by eapply wf_injective.
Qed.

Lemma wf_moves (w w' : World E) : wf w → rtc move w w' → wf w'.
Proof. intros Hwf Hrtc. induction Hrtc; eauto using wf_move. Qed.

End Moves.

Section HandlersAsMoves.

Context {E : Type} (svc : Services E).

Lemma submit_moves id r (w w' : World E) :
  wf w → submitBatchForID svc id w = Ret r w' → rtc move w w'.
Proof.
  intros Hwf Hrun.
  destruct (batches w !! id) as [a|] eqn:Hid;
    [| by rewrite submit_unregistered in Hrun].
  destruct (wf_live w Hwf id a Hid) as [b Hb].
  destruct (decide (logs b = [])) as [Hl|Hl].
  { rewrite (submit_empty svc id a b w Hid Hb Hl) in Hrun.
    injection Hrun as _ <-. apply rtc_refl. }
  destruct (PutLogEvents svc (logs b) (GroupName b) (StreamName b) (Token b) (env w))
    as [[next [err|]] e'] eqn:Hput.
  - rewrite (submit_failure svc id a b next err e' w Hid Hb Hl Hput) in Hrun.
    injection Hrun as _ <-. apply rtc_once. by eapply move_flush_failure.
  - rewrite (submit_success svc id a b next e' w Hid Hb Hl Hput) in Hrun.
    injection Hrun as _ <-. apply rtc_once. by eapply move_flush_success.
Qed.

(** A flush of a registered container always returns. *)
Lemma submit_returns id a (w : World E) :
  wf w → batches w !! id = Some a →
  ∃ r w', submitBatchForID svc id w = Ret r w'.
Proof.
  intros Hwf Hid. destruct (wf_live w Hwf id a Hid) as [b Hb].
  destruct (decide (logs b = [])) as [Hl|Hl].
  { rewrite (submit_empty svc id a b w Hid Hb Hl). eauto. }
  destruct (PutLogEvents svc (logs b) (GroupName b) (StreamName b) (Token b) (env w))
    as [[next [err|]] e'] eqn:Hput.
  - rewrite (submit_failure svc id a b next err e' w Hid Hb Hl Hput). eauto.
  - rewrite (submit_success svc id a b next e' w Hid Hb Hl Hput). eauto.
Qed.

Lemma HandleLogEvent_moves logEvent (w w' : World E) :
  wf w → HandleLogEvent svc logEvent w = Ret tt w' → rtc move w w'.
Proof.
  intros Hwf Hrun.
  destruct (batches w !! ID logEvent) as [a|] eqn:Hid;
    [| by rewrite HandleLogEvent_unregistered in Hrun].
  destruct (wf_live w Hwf _ a Hid) as [b Hb].
  pose proof (wf_unlocked w Hwf a b Hb) as Hm.
  destruct (fits b logEvent) eqn:Hfit.
  { destruct (time_Now_UnixNano svc (env w)) as [t e'] eqn:Ht.
    rewrite (HandleLogEvent_fits svc logEvent a b t e' w Hid Hb Hm Hfit Ht) in Hrun.
    injection Hrun as <-. apply rtc_once. eapply move_append; eauto. }
  destruct (decide (logs b = [])) as [Hl|Hl].
  { by rewrite (HandleLogEvent_blocked svc logEvent a b w Hid Hb Hm Hfit Hl) in Hrun. }
  destruct (PutLogEvents svc (logs b) (GroupName b) (StreamName b) (Token b) (env w))
    as [[next [err|]] e'] eqn:Hput.
  - rewrite (HandleLogEvent_failure svc logEvent a b next err e' w
               Hid Hb Hm Hfit Hl Hput) in Hrun.
    injection Hrun as <-. apply rtc_once. by eapply move_flush_failure.
  - destruct (time_Now_UnixNano svc e') as [t e''] eqn:Ht.
    rewrite (HandleLogEvent_success svc logEvent a b next e' t e'' w
               Hid Hb Hm Hfit Hl Hput Ht) in Hrun.
    injection Hrun as <-.
    eapply rtc_l; [by eapply (move_flush_success w (ID logEvent) a b next e' (output w)) |].
    apply rtc_once.
    match goal with
    | |- move ?w1 ?w2 =>
        pose proof (move_append w1 logEvent (fresh (dom (heap w)))
                      (Batch_literal (GroupName b) (StreamName b) next) t e''
                      (output w2)) as Hmove
    end.
    simpl in Hmove. rewrite insert_insert_eq in Hmove.
    apply Hmove; [apply lookup_insert_eq | apply lookup_insert_eq | by right].
Qed.

Lemma HandleDetachEvent_moves event (w w' : World E) :
  wf w → HandleDetachEvent svc event w = Ret tt w' → rtc move w w'.
Proof.
  intros Hwf Hrun. unfold HandleDetachEvent in Hrun.
  destruct (submitBatchForID svc (EventID event) w) as [r w1| |] eqn:Hsub;
    [| by rewrite (bind_Panic _ _ _ Hsub) in Hrun
     | by rewrite (bind_Blocked _ _ _ Hsub) in Hrun].
  rewrite (bind_Ret _ _ _ _ _ Hsub) in Hrun.
  etrans; [by eapply submit_moves |].
  apply rtc_once.
  destruct r as [err|]; unfold bind, log_Print, emit, ret, batches_delete in Hrun;
    simpl in Hrun; injection Hrun as <-; apply move_delete.
Qed.

Lemma HandleAttachEvent_moves event (w w' : World E) :
  HandleAttachEvent svc event w = Ret tt w' → rtc move w w'.
Proof.
  intros Hrun. apply rtc_once.
  destruct (batches w !! EventID event) as [a|] eqn:Hid.
  - destruct (HandleAttachEvent_registered svc event a w Hid) as [e He].
    rewrite He in Hrun. injection Hrun as <-. apply move_env.
  - destruct (HandleAttachEvent_unregistered svc event w Hid)
      as (group & stream & token & err & e & out & He).
    rewrite He in Hrun. injection Hrun as <-. by apply move_open.
Qed.

Lemma sweep_moves order (w w' : World E) :
  wf w → sweepForOldBatches svc order w = Ret tt w' → rtc move w w'.
Proof.
  revert w. induction order as [|id rest IH]; intros w Hwf Hrun; simpl in Hrun.
  { injection Hrun as <-. apply rtc_refl. }
  destruct (submitBatchForID svc id w) as [r w1| |] eqn:Hsub;
    [| by rewrite (bind_Panic _ _ _ Hsub) in Hrun
     | by rewrite (bind_Blocked _ _ _ Hsub) in Hrun].
  rewrite (bind_Ret _ _ _ _ _ Hsub) in Hrun.
  pose proof (submit_moves _ _ _ _ Hwf Hsub) as Hmoves.
  etrans; [exact Hmoves |]. apply IH; [by eapply wf_moves | done].
Qed.

Lemma handle_moves o (w w' : World E) :
  wf w → handle svc o w = Ret tt w' → rtc move w w'.
Proof.
  destruct o; simpl; eauto using HandleAttachEvent_moves, HandleDetachEvent_moves,
    HandleLogEvent_moves, sweep_moves.
Qed.

Lemma steps_moves os (w w' : World E) :
  wf w → steps svc w os w' → rtc move w w'.
Proof.
  intros Hwf Hsteps. induction Hsteps as [|w o w1 os w2 _ Hrun _ IH]; [apply rtc_refl |].
  pose proof (handle_moves o w w1 Hwf Hrun) as Hmoves.
  etrans; [exact Hmoves |]. apply IH. by eapply wf_moves.
Qed.

Lemma steps_wf os (w w' : World E) : wf w → steps svc w os w' → wf w'.
Proof. intros Hwf Hsteps. eapply wf_moves; [done | by eapply steps_moves]. Qed.

End HandlersAsMoves.

(** ** The continuation token chain *)

Section Chain.

Context {E : Type}.

Lemma chain_New (e : E) : chain_invariant (NewCloudWatchManager e).
Proof.
  split; [apply wf_New |]. split; [| done].
  intros id a b. simpl. by rewrite lookup_empty.
Qed.

Lemma tokens_agree_install (w : World E) id g s token (e : E) out c :
  wf w → tokens_agree w →
  expected id (c :: history w) = Some token →
  (∀ id', id' ≠ id → expected id' (c :: history w) = expected id' (history w)) →
  tokens_agree {| batches := <[id := fresh (dom (heap w))]> (batches w);
                  heap := <[fresh (dom (heap w)) := Batch_literal g s token]> (heap w);
                  env := e; output := out; history := c :: history w |}.
Proof.
  intros Hwf Hagree Hid Hother id' a' b'. cbn [batches heap history].
  rewrite lookup_insert. case_decide as Hdec.
  - subst id'. intros [= <-]. rewrite lookup_insert_eq. by intros [= <-].
  - intros Hid'. rewrite lookup_insert_ne
      by (intros Heq; by eapply registered_not_fresh).
    intros Hb'. rewrite Hother by done. by eapply Hagree.
Qed.

Lemma chain_move (w w' : World E) :
  chain_invariant w → move w w' → chain_invariant w'.
Proof.
  intros (Hwf & Hagree & Hchain) Hmove.
  split; [by eapply wf_move |].
  destruct Hmove as [e out | id a b next err e out Hid Hb Hl
                    | id a b next e out Hid Hb Hl
                    | logEvent a b t e out Hid Hb Hfit
                    | id group stream token err e out Hid
                    | id e out].
  - done.
  - split.
    + intros id' a' b' Hid' Hb'. cbn [batches heap history] in *.
      cbn [expected]. case_decide; by eapply Hagree.
    + cbn [history chained]. split; [by eapply Hagree | done].
  - split.
    + apply tokens_agree_install; try done.
      * cbn [expected]. by rewrite decide_True.
      * intros id' Hne. cbn [expected]. by rewrite decide_False.
    + cbn [history chained]. split; [by eapply Hagree | done].
  - split; [| done].
    intros id' a' b'. cbn [batches heap history]. intros Hid'.
    rewrite lookup_insert. case_decide.
    + subst a'. intros [= <-]. simpl.
      rewrite (wf_injective w Hwf _ _ _ Hid' Hid). by eapply Hagree.
    + by eapply Hagree.
  - split; [| done].
    apply tokens_agree_install; try done.
    + cbn [expected]. by rewrite decide_True.
    + intros id' Hne. cbn [expected]. by rewrite decide_False.
  - split; [| done].
    intros id' a' b'. cbn [batches heap history]. rewrite lookup_delete.
    case_decide; [done |]. by eapply Hagree.
Qed.

Lemma chain_moves (w w' : World E) :
  chain_invariant w → rtc move w w' → chain_invariant w'.
Proof. intros Hinv Hrtc. induction Hrtc; eauto using chain_move. Qed.

(** No move changes the token or the destination of an existing batch. *)
Lemma move_keeps_token (w w' : World E) a b :
  move w w' → heap w !! a = Some b →
  ∃ b', heap w' !! a = Some b' ∧ Token b' = Token b
        ∧ GroupName b' = GroupName b ∧ StreamName b' = StreamName b.
Proof.
  intros Hmove Ha. destruct Hmove; cbn [heap]; eauto.
  - rewrite lookup_insert_ne by (by apply fresh_ne with b). eauto.
  - rewrite lookup_insert. case_decide; [| eauto].
    subst. eexists. split; [done |]. simplify_eq. done.
  - rewrite lookup_insert_ne by (by apply fresh_ne with b). eauto.
Qed.

Lemma moves_keep_token (w w' : World E) a b :
  rtc move w w' → heap w !! a = Some b →
  ∃ b', heap w' !! a = Some b' ∧ Token b' = Token b
        ∧ GroupName b' = GroupName b ∧ StreamName b' = StreamName b.
Proof.
  intros Hrtc. revert b. induction Hrtc as [|w w1 w2 Hmove _ IH]; intros b Ha; [eauto |].
  destruct (move_keeps_token _ _ _ _ Hmove Ha) as (b1 & Hb1 & Ht & Hg & Hs).
  destruct (IH _ Hb1) as (b2 & Hb2 & Ht2 & Hg2 & Hs2).
  exists b2. repeat split; congruence.
Qed.

End Chain.

(** ** Retired batches *)

Section Retired.

Context {E : Type}.

Lemma never_from_refl a h : never_from a h h.
Proof. by exists []. Qed.

Lemma never_from_trans a h1 h2 h3 :
  never_from a h1 h2 → never_from a h2 h3 → never_from a h1 h3.
Proof.
  intros (n1 & -> & H1) (n2 & -> & H2). exists (n2 ++ n1).
  split; [by rewrite app_assoc | by apply Forall_app].
Qed.

Lemma never_from_cons a h c : from_batch c ≠ Some a → never_from a h (c :: h).
Proof. intros Hc. exists [c]. split; [done | by apply Forall_singleton]. Qed.

Lemma retired_fresh (w : World E) a id' b (e : E) out hs :
  retired a w →
  retired a {| batches := <[id' := fresh (dom (heap w))]> (batches w);
               heap := <[fresh (dom (heap w)) := b]> (heap w);
               env := e; output := out; history := hs |}.
Proof.
  intros [[b0 Hb0] Hnone]. pose proof (fresh_ne _ _ _ Hb0) as Hne.
  split; cbn [batches heap].
  - rewrite lookup_insert_ne by done. eauto.
  - intros id. rewrite lookup_insert. case_decide; [congruence | apply Hnone].
Qed.

Lemma retired_move a (w w' : World E) :
  retired a w → move w w' →
  retired a w' ∧ never_from a (history w) (history w').
Proof.
  intros Hret Hmove. pose proof Hret as [[b0 Hb0] Hnone].
  destruct Hmove as [e out | id a1 b next err e out Hid Hb Hl
                    | id a1 b next e out Hid Hb Hl
                    | logEvent a1 b t e out Hid Hb Hfit
                    | id group stream token err e out Hid
                    | id e out]; cbn [history].
  - split; [done | apply never_from_refl].
  - split; [done |]. apply never_from_cons. simpl. intros [= ->]. by eapply Hnone.
  - split; [by apply retired_fresh |].
    apply never_from_cons. simpl. intros [= ->]. by eapply Hnone.
  - split; [| apply never_from_refl]. split; cbn [batches heap]; [| done].
    rewrite lookup_insert. case_decide; eauto.
  - split; [by apply retired_fresh |]. by apply never_from_cons.
  - split; [| apply never_from_refl]. split; cbn [batches heap]; [eauto |].
    intros id'. rewrite lookup_delete. case_decide; [done | apply Hnone].
Qed.

Lemma retired_moves a (w w' : World E) :
  retired a w → rtc move w w' →
  retired a w' ∧ never_from a (history w) (history w').
Proof.
  intros Hret Hrtc. induction Hrtc as [|w w1 w2 Hmove _ IH].
  { split; [done | apply never_from_refl]. }
  destruct (retired_move a _ _ Hret Hmove) as [Hret1 Hn1].
  destruct (IH Hret1) as [Hret2 Hn2].
  split; [done | by eapply never_from_trans].
Qed.

End Retired.

(** ** Timestamps in insertion order *)

Lemma nondecreasing_snoc (l : list Z) z :
  nondecreasing l → (∀ x, x ∈ l → x <= z) → nondecreasing (l ++ [z]).
Proof.
  intros Hl Hz i j x y Hij Hi Hj.
  destruct (decide (j < length l)%nat) as [Hlt|Hge].
  - rewrite lookup_app_l in Hi by lia. rewrite lookup_app_l in Hj by lia. eauto.
  - assert (j = length l) as ->.
    { apply lookup_lt_Some in Hj. rewrite length_app in Hj. simpl in Hj. lia. }
    rewrite lookup_app_r, Nat.sub_diag in Hj by lia. injection Hj as <-.
    destruct (decide (i < length l)%nat) as [Hlt|Hge'].
    + rewrite lookup_app_l in Hi by lia. apply Hz. by eapply list_elem_of_lookup_2.
    + assert (i = length l) as -> by lia.
      rewrite lookup_app_r, Nat.sub_diag in Hi by lia. injection Hi as <-. lia.
Qed.

Lemma nondecreasing_singleton z : nondecreasing [z].
Proof.
  intros i j x y _ Hi Hj.
  apply list_lookup_singleton_Some in Hi as [_ <-].
  apply list_lookup_singleton_Some in Hj as [_ <-]. lia.
Qed.

(** ** Flushing *)

Section FlushFacts.

Context {E : Type} (svc : Services E).

(** A flush of a registered container returns; it changes no existing
    batch, keeps the keys of the registry and the entries of the other
    containers, and a non-empty batch is submitted as it is. *)
Lemma submit_frame id a b (w : World E) :
  wf w → batches w !! id = Some a → heap w !! a = Some b →
  ∃ r w', submitBatchForID svc id w = Ret r w'
    ∧ wf w'
    ∧ (∀ k, is_Some (batches w !! k) → is_Some (batches w' !! k))
    ∧ (∀ k, k ≠ id → batches w' !! k = batches w !! k)
    ∧ (∀ a0 b0, heap w !! a0 = Some b0 → heap w' !! a0 = Some b0)
    ∧ (logs b = [] → history w' = history w)
    ∧ (logs b ≠ [] → ∃ next err,
         history w' = Put id (Some a) (logs b) (GroupName b) (StreamName b) (Token b)
                          next err :: history w).
Proof.
  intros Hwf Hid Hb.
  destruct (submit_returns svc id a w Hwf Hid) as (r & w' & Hrun).
  exists r, w'. split; [done |].
  split; [eapply wf_moves; [done | by eapply submit_moves] |].
  destruct (decide (logs b = [])) as [Hl|Hl].
  { rewrite (submit_empty svc id a b w Hid Hb Hl) in Hrun. injection Hrun as _ <-.
    repeat split; eauto. done. }
  destruct (PutLogEvents svc (logs b) (GroupName b) (StreamName b) (Token b) (env w))
    as [[next [err|]] e'] eqn:Hput.
  - rewrite (submit_failure svc id a b next err e' w Hid Hb Hl Hput) in Hrun.
    injection Hrun as _ <-. cbn [batches heap history].
    repeat split; eauto. done.
  - rewrite (submit_success svc id a b next e' w Hid Hb Hl Hput) in Hrun.
    injection Hrun as _ <-. cbn [batches heap history].
    repeat split; eauto.
    + intros k Hk. rewrite lookup_insert. case_decide; eauto.
    + intros k Hk. by rewrite lookup_insert_ne.
    + intros a0 b0 Ha0. rewrite lookup_insert_ne by (by eapply fresh_ne). done.
    + done.
Qed.

(** A sweep over registered containers returns. *)
Lemma sweep_returns order (w : World E) :
  wf w → (∀ k, k ∈ order → is_Some (batches w !! k)) →
  ∃ w', sweepForOldBatches svc order w = Ret tt w'
        ∧ ∃ new, history w' = new ++ history w.
Proof.
  revert w. induction order as [|id rest IH]; intros w Hwf Hreg.
  { exists w. split; [done | by exists []]. }
  destruct (Hreg id) as [a Hid]; [by left |].
  destruct (wf_live w Hwf id a Hid) as [b Hb].
  destruct (submit_frame id a b w Hwf Hid Hb)
    as (r & w1 & Hrun & Hwf1 & Hkeys & _ & _ & Hempty & Hfull).
  destruct (IH w1 Hwf1) as (w2 & Hrest & new & Hnew).
  { intros k Hk. apply Hkeys, Hreg. by right. }
  exists w2. split.
  { simpl. by rewrite (bind_Ret _ _ _ _ _ Hrun). }
  rewrite Hnew. destruct (decide (logs b = [])) as [Hl|Hl].
  - rewrite (Hempty Hl). by exists new.
  - destruct (Hfull Hl) as (next & err & ->).
    eexists (new ++ [_]). by rewrite <- app_assoc.
Qed.

(** A sweep submits the non-empty batch of every container it visits,
    with the events, the destination and the token the batch has when the
    sweep starts. *)
Lemma sweep_visits order id a b (w : World E) :
  wf w → (∀ k, k ∈ order → is_Some (batches w !! k)) → id ∈ order →
  batches w !! id = Some a → heap w !! a = Some b → logs b ≠ [] →
  ∃ w' new next err,
    sweepForOldBatches svc order w = Ret tt w'
    ∧ history w' = new ++ history w
    ∧ Put id (Some a) (logs b) (GroupName b) (StreamName b) (Token b) next err ∈ new.
Proof.
  revert w. induction order as [|k rest IH]; intros w Hwf Hreg Hin Hid Hb Hl.
  { by apply elem_of_nil in Hin. }
  destruct (decide (k = id)) as [->|Hne].
  - destruct (submit_frame id a b w Hwf Hid Hb)
      as (r & w1 & Hrun & Hwf1 & Hkeys & _ & _ & _ & Hfull).
    destruct (Hfull Hl) as (next & err & Hput).
    destruct (sweep_returns rest w1 Hwf1) as (w2 & Hrest & new & Hnew).
    { intros j Hj. apply Hkeys, Hreg. by right. }
    exists w2, (new ++ [Put id (Some a) (logs b) (GroupName b) (StreamName b)
                            (Token b) next err]), next, err.
    split; [simpl; by rewrite (bind_Ret _ _ _ _ _ Hrun) |].
    split; [by rewrite Hnew, Hput, <- app_assoc |].
    apply elem_of_app. right. by apply list_elem_of_singleton.
  - destruct (Hreg k) as [ak Hk]; [by left |].
    destruct (wf_live w Hwf k ak Hk) as [bk Hbk].
    destruct (submit_frame k ak bk w Hwf Hk Hbk)
      as (r & w1 & Hrun & Hwf1 & Hkeys & Hothers & Hheap & Hempty & Hfull).
    destruct (IH w1 Hwf1) as (w2 & new & next & err & Hrest & Hnew & Hput).
    { intros j Hj. apply Hkeys, Hreg. by right. }
    { apply elem_of_cons in Hin as [->|Hin]; done. }
    { rewrite Hothers by done. done. }
    { by apply Hheap. }
    { done. }
    assert (∃ mid, history w1 = mid ++ history w) as [mid Hmid].
    { destruct (decide (logs bk = [])) as [Hlk|Hlk].
      - exists []. by rewrite (Hempty Hlk).
      - destruct (Hfull Hlk) as (nk & ek & ->). by eexists [_]. }
    exists w2, (new ++ mid), next, err.
    split; [simpl; by rewrite (bind_Ret _ _ _ _ _ Hrun) |].
    split; [by rewrite Hnew, Hmid, app_assoc |].
    apply elem_of_app. by left.
Qed.

Lemma enabled_sweep_registered order (w : World E) k :
  enabled (Sweep order) w → k ∈ order ↔ is_Some (batches w !! k).
Proof.
  simpl. intros Hperm. rewrite Hperm. rewrite list_elem_of_fmap. split.
  - intros ([k' a] & -> & Hk). apply elem_of_map_to_list in Hk. simpl. eauto.
  - intros [a Hk]. exists (k, a). split; [done |]. by apply elem_of_map_to_list.
Qed.

End FlushFacts.

(** ** Bounds *)

Section Bounds.

Context {E : Type} (svc : Services E).

Lemma count_bounded_move (w w' : World E) :
  count_bounded w → move w w' → count_bounded w'.
Proof.
  intros Hbound Hmove a0 b0.
  destruct Hmove as [e out | id a b next err e out Hid Hb Hl
                    | id a b next e out Hid Hb Hl
                    | logEvent a b t e out Hid Hb Hfit
                    | id group stream token err e out Hid
                    | id e out]; cbn [heap]; try apply Hbound.
  - rewrite lookup_insert. case_decide; [| apply Hbound].
    intros [= <-]. simpl. unfold maxBatchLength. lia.
  - rewrite lookup_insert. case_decide; [| apply Hbound].
    intros [= <-]. simpl. rewrite length_app. simpl.
    destruct Hfit as [Hfit|[-> _]].
    + unfold fits in Hfit. apply andb_true_iff in Hfit as [Hlen _].
      apply Z.ltb_lt in Hlen. lia.
    + simpl. unfold maxBatchLength. lia.
  - rewrite lookup_insert. case_decide; [| apply Hbound].
    intros [= <-]. simpl. unfold maxBatchLength. lia.
Qed.

(** X13: in every execution from an empty registry, no batch ever holds
    more than 1000 events. *)
Lemma steps_count_bounded e os (w : World E) :
  steps svc (NewCloudWatchManager e) os w → count_bounded w.
Proof.
  intros Hsteps.
  assert (Hmoves : rtc move (NewCloudWatchManager e) w)
    by (eapply steps_moves; [apply wf_New | done]).
  assert (H0 : count_bounded (NewCloudWatchManager e)).
  { intros a b. simpl. by rewrite lookup_empty. }
  clear Hsteps. induction Hmoves; eauto using count_bounded_move.
Qed.

(** X15: when every batch is within the byte bound, handling an event
    whose own size is within the bound leaves every batch within the
    bound. *)
Lemma HandleLogEvent_keeps_byte_bound logEvent (w w' : World E) :
  wf w → bytes_bounded w →
  messageSize None logEvent <= maxBatchSize →
  HandleLogEvent svc logEvent w = Ret tt w' →
  bytes_bounded w'.
Proof.
  intros Hwf Hbound Hsmall Hrun.
  destruct (batches w !! ID logEvent) as [a|] eqn:Hid;
    [| by rewrite HandleLogEvent_unregistered in Hrun].
  destruct (wf_live w Hwf _ a Hid) as [b Hb].
  pose proof (wf_unlocked w Hwf a b Hb) as Hm.
  destruct (fits b logEvent) eqn:Hfit.
  { destruct (time_Now_UnixNano svc (env w)) as [t e'] eqn:Ht.
    rewrite (HandleLogEvent_fits svc logEvent a b t e' w Hid Hb Hm Hfit Ht) in Hrun.
    injection Hrun as <-. intros a0 b0. cbn [heap].
    rewrite lookup_insert. case_decide; [| apply Hbound].
    intros [= <-]. simpl.
    unfold fits in Hfit. apply andb_true_iff in Hfit as [_ Hsize].
    by apply Z.leb_le in Hsize. }
  destruct (decide (logs b = [])) as [Hl|Hl].
  { by rewrite (HandleLogEvent_blocked svc logEvent a b w Hid Hb Hm Hfit Hl) in Hrun. }
  destruct (PutLogEvents svc (logs b) (GroupName b) (StreamName b) (Token b) (env w))
    as [[next [err|]] e'] eqn:Hput.
  - rewrite (HandleLogEvent_failure svc logEvent a b next err e' w
               Hid Hb Hm Hfit Hl Hput) in Hrun.
    injection Hrun as <-. exact Hbound.
  - destruct (time_Now_UnixNano svc e') as [t e''] eqn:Ht.
    rewrite (HandleLogEvent_success svc logEvent a b next e' t e'' w
               Hid Hb Hm Hfit Hl Hput Ht) in Hrun.
    injection Hrun as <-. intros a0 b0. cbn [heap].
    rewrite lookup_insert. case_decide; [| apply Hbound].
    intros [= <-]. simpl. rewrite Z.add_0_l.
    rewrite int64_small; [done |]. unfold messageSize. apply int64_range.
Qed.

End Bounds.

Lemma wf_one_event r : wf (Examples.one_event r).
Proof.
  split; simpl.
  - intros id a [_ <-]%lookup_singleton_Some. by rewrite lookup_singleton_eq.
  - by intros a b [_ <-]%lookup_singleton_Some.
  - intros id1 id2 a [<- _]%lookup_singleton_Some [<- _]%lookup_singleton_Some. done.
Qed.

(** ** The claims *)

Section BatchClaims.

Context {E : Type} (svc : Services E).

(** C3: for a batch whose byte total is not negative and stays within
    [int64] when the event is counted, [messageFits] leaves the world as
    it is and answers [false] exactly when the byte total plus the
    payload length plus 28 would exceed 32768 or the number of events
    plus one would exceed 1000. *)
Theorem messageFits_accepts (w : World E) a b dockerLog :
  heap w !! a = Some b →
  0 <= bytes b →
  bytes b + (Z.of_nat (String.length (Data dockerLog)) + 28) <= max_int64 →
  ∃ r, messageFits (Some a) dockerLog w = Ret r w ∧
       (r = false ↔
          maxBatchSize < bytes b + (Z.of_nat (String.length (Data dockerLog)) + 28)
          ∨ maxBatchLength < Z.of_nat (length (logs b)) + 1).
Proof.
  intros Ha Hpos Hmax. exists (fits b dockerLog). split; [by apply messageFits_run |].
  unfold fits, messageSize, max_int64 in *.
  rewrite (int64_small (_ + 28)) by (unfold min_int64, max_int64; lia).
  rewrite int64_small by (unfold min_int64, max_int64; lia).
  rewrite andb_false_iff, Z.ltb_ge, Z.leb_gt. lia.
Qed.

(** C10 as amended: [AddEvent] appends the payload stamped with the
    clock reading divided by 1000000 and adds the payload length plus 28
    to the byte total (within [int64]); the timestamps stay in
    non-decreasing order when the reading is not earlier than the
    timestamps already stored. *)
Theorem AddEvent_stamps (w : World E) a b dockerLog t e' :
  heap w !! a = Some b →
  time_Now_UnixNano svc (env w) = (t, e') →
  0 <= bytes b →
  bytes b + (Z.of_nat (String.length (Data dockerLog)) + 28) <= max_int64 →
  nondecreasing (Timestamp <$> logs b) →
  (∀ x, x ∈ logs b → Timestamp x <= Z.quot t 1000000) →
  ∃ b', AddEvent svc (Some a) dockerLog w =
          Ret tt {| batches := batches w; heap := <[a := b']> (heap w); env := e';
                    output := output w; history := history w |}
        ∧ logs b' = logs b ++ [{| Message := Data dockerLog;
                                  Timestamp := Z.quot t 1000000 |}]
        ∧ bytes b' = bytes b + (Z.of_nat (String.length (Data dockerLog)) + 28)
        ∧ nondecreasing (Timestamp <$> logs b').
Proof.
  intros Ha Ht Hpos Hmax Hsorted Hclock.
  exists (appended b dockerLog t). split; [by apply AddEvent_run |].
  split; [done |]. split.
  - simpl. unfold messageSize.
    rewrite (int64_small (_ + 28)) by (unfold min_int64, max_int64 in *; lia).
    apply int64_small. unfold min_int64, max_int64 in *. lia.
  - simpl. rewrite fmap_app. apply nondecreasing_snoc; [done |].
    intros x (y & -> & Hy)%list_elem_of_fmap. by apply Hclock.
Qed.

End BatchClaims.

Section ManagerClaims.

Context {E : Type} (svc : Services E).

(** C4: in a well-formed world, a flush of an empty batch makes no call
    and changes nothing; a flush of a non-empty batch whose submission
    succeeds makes the registry lead to a batch that did not exist
    before, has no events and a byte total of zero, carries the returned
    token and the group and stream names of the old batch; and no call in
    any later execution is made for the old batch. *)
Theorem flush_success_replaces_batch (w : World E) id a b :
  wf w → batches w !! id = Some a → heap w !! a = Some b →
  (logs b = [] → submitBatchForID svc id w = Ret None w)
  ∧ (logs b ≠ [] → ∀ next e',
       PutLogEvents svc (logs b) (GroupName b) (StreamName b) (Token b) (env w)
         = ((next, None), e') →
       ∃ a' b' w',
         submitBatchForID svc id w = Ret None w'
         ∧ batches w' = <[id := a']> (batches w)
         ∧ heap w !! a' = None
         ∧ heap w' !! a' = Some b'
         ∧ logs b' = [] ∧ bytes b' = 0 ∧ Token b' = next
         ∧ GroupName b' = GroupName b ∧ StreamName b' = StreamName b
         ∧ history w' = Put id (Some a) (logs b) (GroupName b) (StreamName b)
                            (Token b) next None :: history w
         ∧ ∀ os w'', steps svc w' os w'' → never_from a (history w') (history w'')).
Proof.
  intros Hwf Hid Hb. split; [by apply submit_empty with a |].
  intros Hl next e' Hput.
  pose proof (submit_success svc id a b next e' w Hid Hb Hl Hput) as Hrun.
  eexists (fresh (dom (heap w))), _, _. split; [exact Hrun |].
  cbn [batches heap history].
  split; [done |]. split; [apply fresh_heap |].
  split; [apply lookup_insert_eq |].
  repeat (split; [done |]).
  intros os w'' Hsteps.
  match type of Hrun with _ = Ret _ ?w1 => set (w' := w1) in * end.
  assert (Hwf' : wf w') by (eapply wf_moves; [done | by eapply submit_moves]).
  assert (Hret : retired a w').
  { split; unfold w'; cbn [batches heap].
    - rewrite lookup_insert_ne by (by eapply fresh_ne). eauto.
    - intros id'. rewrite lookup_insert. case_decide.
      + intros [= Heq]. by eapply (fresh_ne (heap w)).
      + intros Hid'. by destruct (wf_injective w Hwf _ _ _ Hid Hid'). }
  by apply (retired_moves a w' w'' Hret), (steps_moves svc os).
Qed.

(** C5: when the submission of a non-empty batch fails, the flush returns
    the error and leaves the registry and every batch as they were; and a
    sweep that starts in any well-formed world in which the container
    still has this batch makes a submission with the same events,
    destination and token. *)
Theorem flush_failure_keeps_batch (w : World E) id a b next err e' :
  batches w !! id = Some a → heap w !! a = Some b → logs b ≠ [] →
  PutLogEvents svc (logs b) (GroupName b) (StreamName b) (Token b) (env w)
    = ((next, Some err), e') →
  ∃ w',
    submitBatchForID svc id w = Ret (Some err) w'
    ∧ batches w' = batches w
    ∧ heap w' = heap w
    ∧ ∀ w1 order,
        wf w1 → enabled (Sweep order) w1 →
        batches w1 !! id = Some a → heap w1 !! a = Some b →
        ∃ w2 new next' err',
          sweepForOldBatches svc order w1 = Ret tt w2
          ∧ history w2 = new ++ history w1
          ∧ Put id (Some a) (logs b) (GroupName b) (StreamName b) (Token b)
                next' err' ∈ new.
Proof.
  intros Hid Hb Hl Hput. eexists. split; [by eapply submit_failure |].
  cbn [batches heap]. split; [done |]. split; [done |].
  intros w1 order Hwf1 Hen Hid1 Hb1.
  apply sweep_visits; try done.
  - intros k Hk. by apply (enabled_sweep_registered order w1 k Hen).
  - apply (enabled_sweep_registered order w1 id Hen). eauto.
Qed.

(** C6 as amended: when the event does not fit and the submission of the
    batch fails, [HandleLogEvent] returns after writing the error at
    debug level; the event is stored nowhere, and the registry and every
    batch, the one that failed to flush included, are as they were. *)
Theorem failed_flush_on_event_drops_event (w : World E) logEvent a b next err e' :
  batches w !! ID logEvent = Some a → heap w !! a = Some b → Mutex b = false →
  messageFits (Some a) logEvent w = Ret false w →
  PutLogEvents svc (logs b) (GroupName b) (StreamName b) (Token b) (env w)
    = ((next, Some err), e') →
  logs b ≠ [] →
  ∃ w',
    HandleLogEvent svc logEvent w = Ret tt w'
    ∧ batches w' = batches w
    ∧ heap w' = heap w
    ∧ output w' = Debugged ("ERROR: submitting full batch for container "
                            +:+ ID logEvent +:+ ": " +:+ err) :: output w
    ∧ history w' = Put (ID logEvent) (Some a) (logs b) (GroupName b) (StreamName b)
                       (Token b) next (Some err) :: history w.
Proof.
  intros Hid Hb Hm Hfits Hput Hl.
  rewrite (messageFits_run a b logEvent w Hb) in Hfits. injection Hfits as Hfits.
  eexists. split; [by eapply HandleLogEvent_failure |]. done.
Qed.

(** C7 as amended: for an event whose container has no batch in the
    registry, [HandleLogEvent] does not return: locking the nil batch
    panics, before anything is changed, logged or submitted. *)
Theorem event_without_batch_panics (w : World E) logEvent :
  batches w !! ID logEvent = None → HandleLogEvent svc logEvent w = Panic.
Proof. apply HandleLogEvent_unregistered. Qed.

(** C8: for a registered container in a well-formed world,
    [HandleDetachEvent] returns and the registry has lost exactly the
    entry of that container; when the final submission fails, the error
    is printed and no later execution makes a call for the batch. *)
Theorem detach_removes_entry (w : World E) event a :
  wf w → batches w !! EventID event = Some a →
  ∃ w',
    HandleDetachEvent svc event w = Ret tt w'
    ∧ batches w' = delete (EventID event) (batches w)
    ∧ batches w' !! EventID event = None
    ∧ ∀ b next err e',
        heap w !! a = Some b → logs b ≠ [] →
        PutLogEvents svc (logs b) (GroupName b) (StreamName b) (Token b) (env w)
          = ((next, Some err), e') →
        output w' = Printed ("ERROR: submitting batch for container "
                             +:+ EventID event +:+ ": " +:+ err) :: output w
        ∧ ∀ os w'', steps svc w' os w'' → never_from a (history w') (history w'').
Proof.
  intros Hwf Hid. destruct (wf_live w Hwf _ a Hid) as [b Hb].
  destruct (submit_returns svc _ a w Hwf Hid) as (r & w1 & Hrun).
  unfold HandleDetachEvent. rewrite (bind_Ret _ _ _ _ _ Hrun).
  assert (∃ w', bind match r with
                     | Some e => log_Print ("ERROR: submitting batch for container "
                                            +:+ EventID event +:+ ": " +:+ e)
                     | None => ret tt
                     end (λ _, batches_delete (EventID event)) w1 = Ret tt w'
                ∧ batches w' = delete (EventID event) (batches w1)
                ∧ heap w' = heap w1 ∧ history w' = history w1
                ∧ output w' = match r with
                              | Some e => Printed ("ERROR: submitting batch for container "
                                                   +:+ EventID event +:+ ": " +:+ e)
                                          :: output w1
                              | None => output w1
                              end) as (w' & Hrest & Hbs & Hheap & Hhist & Hout).
  { destruct r; eexists; (split; [reflexivity |]); done. }
  exists w'. split; [exact Hrest |].
  assert (Hdel : batches w' = delete (EventID event) (batches w)).
  { rewrite Hbs. apply map_eq. intros k. rewrite !lookup_delete. case_decide; [done |].
    destruct (submit_frame svc _ a b w Hwf Hid Hb) as (r' & w1' & Hrun' & _ & _ & Ho & _).
    rewrite Hrun in Hrun'. injection Hrun' as _ <-. by apply Ho. }
  split; [done |]. split; [rewrite Hdel; apply lookup_delete_eq |].
  intros b0 next err e' Hb0 Hl Hput. rewrite Hb in Hb0. injection Hb0 as <-.
  rewrite (submit_failure svc _ a b next err e' w Hid Hb Hl Hput) in Hrun.
  injection Hrun as <- <-. cbn [output heap] in *.
  split; [done |]. intros os w'' Hsteps.
  assert (Hwf' : wf w').
  { eapply wf_moves; [exact Hwf |]. eapply HandleDetachEvent_moves; [done |].
    unfold HandleDetachEvent.
    erewrite bind_Ret by (by eapply submit_failure). exact Hrest. }
  assert (Hret : retired a w').
  { split.
    - rewrite Hheap. eauto.
    - intros id'. rewrite Hdel, lookup_delete. case_decide; [done |].
      intros Hid'. by destruct (wf_injective w Hwf _ _ _ Hid Hid'). }
  by apply (retired_moves a w' w'' Hret), (steps_moves svc os).
Qed.

(** C9: in a well-formed world, [HandleDetachEvent] panics exactly when
    the container has no entry in the registry: the flush reads the
    events of a nil batch. *)
Theorem detach_panics_iff_unregistered (w : World E) event :
  wf w →
  HandleDetachEvent svc event w = Panic ↔ batches w !! EventID event = None.
Proof.
  intros Hwf. split.
  - intros Hpanic. destruct (batches w !! EventID event) as [a|] eqn:Hid; [| done].
    destruct (submit_returns svc _ a w Hwf Hid) as (r & w1 & Hrun).
    unfold HandleDetachEvent in Hpanic. rewrite (bind_Ret _ _ _ _ _ Hrun) in Hpanic.
    by destruct r.
  - intros Hid. unfold HandleDetachEvent. apply bind_Panic.
    by apply submit_unregistered.
Qed.

End ManagerClaims.

Section ChainClaim.

Context {E : Type} (svc : Services E).

(** C1 as amended: in every execution from an empty registry, every
    submission made for a container carries the token returned by the
    most recent successful submission made for that container, or the
    token of its stream opening when there was none since; the token of
    every registered batch is that token; and no handler changes the token
    of an existing batch. *)
Theorem token_chain_per_container e os (w : World E) :
  steps svc (NewCloudWatchManager e) os w →
  chained (history w)
  ∧ tokens_agree w
  ∧ ∀ o w' a b, handle svc o w = Ret tt w' → heap w !! a = Some b →
                ∃ b', heap w' !! a = Some b' ∧ Token b' = Token b.
Proof.
  intros Hsteps.
  assert (Hinv : chain_invariant w).
  { eapply chain_moves; [apply chain_New |].
    eapply steps_moves; [apply wf_New | done]. }
  destruct Hinv as (Hwf & Hagree & Hchain).
  split; [done |]. split; [done |].
  intros o w' a b Hrun Ha.
  destruct (moves_keep_token w w' a b) as (b' & Hb' & Htok & _);
    [by eapply handle_moves | done | eauto].
Qed.

End ChainClaim.

(** ** The claims on examples *)

Lemma messageFits_accepts_witness :
  ∃ r, messageFits (Some 1%positive) (Examples.line "c1" 3)
         (Examples.one_event ("T1"%string, None))
       = Ret r (Examples.one_event ("T1"%string, None))
       ∧ (r = false ↔
            maxBatchSize < 31 + (Z.of_nat (String.length (Examples.payload 3)) + 28)
            ∨ maxBatchLength < Z.of_nat 1 + 1).
Proof.
  apply (messageFits_accepts (Examples.one_event ("T1"%string, None)) 1%positive
           Examples.the_batch (Examples.line "c1" 3)).
  - reflexivity.
  - simpl. lia.
  - vm_compute. discriminate.
Defined.

Lemma AddEvent_stamps_witness :
  ∃ b', AddEvent Sim.own (Some 1%positive) (Examples.line "c1" 3)
          (Examples.one_event ("T1"%string, None))
        = Ret tt {| batches := {[ "c1"%string := 1%positive ]};
                    heap := <[1%positive := b']> {[ 1%positive := Examples.the_batch ]};
                    env := {| Sim.clock := []; Sim.puts := [("T1"%string, None)];
                              Sim.streams := [] |};
                    output := [];
                    history := [Opened "c1" "g" "s" "T0" None] |}
        ∧ logs b' = [{| Message := "aaa"; Timestamp := 5 |};
                     {| Message := "aaa"; Timestamp := 7 |}]
        ∧ bytes b' = 31 + (Z.of_nat 3 + 28)
        ∧ nondecreasing (Timestamp <$> logs b').
Proof.
  apply (AddEvent_stamps Sim.own (Examples.one_event ("T1"%string, None)) 1%positive
           Examples.the_batch (Examples.line "c1" 3) 7000000
           {| Sim.clock := []; Sim.puts := [("T1"%string, None)]; Sim.streams := [] |}).
  - reflexivity.
  - reflexivity.
  - simpl. lia.
  - vm_compute. discriminate.
  - apply nondecreasing_singleton.
  - intros x Hx. apply list_elem_of_singleton in Hx. subst x. vm_compute. discriminate.
Defined.

(** C10, as stated, fails when the wall clock is set back between two
    appends: the clock reads 2 s and then 1 s, and the batch stores the
    timestamps 2000 and 1000 in this order. *)
Lemma AddEvent_clock_set_back :
  ∃ w b,
    steps Sim.own (Sim.start [2000000000; 1000000000] [])
          [Attach (Examples.container "c1"); Emit (Examples.line "c1" 3);
           Emit (Examples.line "c1" 3)] w
    ∧ batches w !! "c1"%string = Some 1%positive
    ∧ heap w !! 1%positive = Some b
    ∧ Timestamp <$> logs b = [2000; 1000]
    ∧ ¬ nondecreasing (Timestamp <$> logs b).
Proof.
  eexists _, _. split.
  { repeat (eapply steps_cons; [exact I | vm_compute; reflexivity |]). apply steps_nil. }
  split; [reflexivity |]. split; [reflexivity |]. split; [reflexivity |].
  intros Hsorted. specialize (Hsorted 0%nat 1%nat 2000 1000).
  simpl in Hsorted. specialize (Hsorted ltac:(lia) eq_refl eq_refl). lia.
Qed.

Lemma token_chain_per_container_witness :
  ∃ w, steps Sim.own (Sim.start [5000000] [("T1"%string, None)])
         [Attach (Examples.container "c1"); Emit (Examples.line "c1" 3);
          Sweep ["c1"%string]] w
       ∧ chained (history w) ∧ tokens_agree w.
Proof.
  eexists. split.
  { repeat (eapply steps_cons; [vm_compute; done | vm_compute; reflexivity |]).
    apply steps_nil. }
  match goal with
  | |- chained (history ?w1) ∧ _ =>
      destruct (token_chain_per_container Sim.own
                  {| Sim.clock := [5000000]; Sim.puts := [("T1"%string, None)];
                     Sim.streams := [] |}
                  [Attach (Examples.container "c1"); Emit (Examples.line "c1" 3);
                   Sweep ["c1"%string]] w1) as (Hchain & Hagree & _)
  end.
  { repeat (eapply steps_cons; [vm_compute; done | vm_compute; reflexivity |]).
    apply steps_nil. }
  split; assumption.
Defined.

(** C1, as stated for destinations, fails when two containers write to
    the same stream: the second submission of [c1] carries the token
    returned by its own first submission, not the token the submission of
    [c2] returned in between. *)
Lemma token_chain_broken_per_destination :
  ∃ w, steps Sim.shared
         (Sim.start [1000000; 2000000; 3000000]
                    [("T1"%string, None); ("T2"%string, None); ("T3"%string, None)])
         [Attach (Examples.container "c1"); Attach (Examples.container "c2");
          Emit (Examples.line "c1" 3); Emit (Examples.line "c2" 3);
          Sweep ["c1"%string; "c2"%string];
          Emit (Examples.line "c1" 3);
          Sweep ["c1"%string; "c2"%string]] w
       ∧ ¬ chained_per_destination (history w).
Proof.
  eexists. split.
  { repeat (eapply steps_cons; [vm_compute; done | vm_compute; reflexivity |]).
    apply steps_nil. }
  vm_compute. intros [[H|H] _]; discriminate H.
Qed.

(** C2 at a failing input: a batch holds one event; an event with a
    payload of 32741 bytes arrives; the batch is flushed and replaced, and
    the event is appended to the replacement, whose byte total is then
    32769. *)
Theorem oversized_event_exceeds_byte_bound :
  ∃ w b, steps Sim.own (Sim.start [5000000; 6000000] [("T1"%string, None)])
           [Attach (Examples.container "c1"); Emit (Examples.line "c1" 3);
            Emit (Examples.line "c1" 32741)] w
         ∧ batches w !! "c1"%string = Some 2%positive
         ∧ heap w !! 2%positive = Some b
         ∧ length (logs b) = 1%nat
         ∧ bytes b = 32769
         ∧ maxBatchSize < bytes b.
Proof.
  eexists _, (appended (Batch_literal "logspout-host" "host-c1" "T1")
                       (Examples.line "c1" 32741) 6000000).
  split.
  { eapply steps_cons; [exact I | vm_compute; reflexivity |].
    eapply steps_cons; [exact I | vm_compute; reflexivity |].
    eapply steps_cons; [exact I | | apply steps_nil].
    cbv delta [handle] beta iota.
    eapply (HandleLogEvent_success Sim.own (Examples.line "c1" 32741) 1%positive).
    - reflexivity.
    - reflexivity.
    - reflexivity.
    - vm_compute. reflexivity.
    - discriminate.
    - reflexivity.
    - reflexivity. }
  cbn [batches heap].
  split; [rewrite lookup_insert_eq; vm_compute; reflexivity |].
  split; [vm_compute fresh; apply lookup_insert_eq |].
  split; [reflexivity |]. split; vm_compute; reflexivity.
Qed.

Lemma flush_success_replaces_batch_witness :
  wf (Examples.one_event ("T1"%string, None))
  ∧ ∃ a' b' w',
      submitBatchForID Sim.own "c1" (Examples.one_event ("T1"%string, None)) = Ret None w'
      ∧ batches w' !! "c1"%string = Some a'
      ∧ heap w' !! a' = Some b'
      ∧ logs b' = [] ∧ bytes b' = 0 ∧ Token b' = "T1"%string
      ∧ GroupName b' = "g"%string ∧ StreamName b' = "s"%string.
Proof.
  split; [apply wf_one_event |].
  destruct (flush_success_replaces_batch Sim.own
              (Examples.one_event ("T1"%string, None)) "c1" 1%positive Examples.the_batch
              (wf_one_event _) eq_refl eq_refl) as [_ Hfull].
  destruct (Hfull ltac:(discriminate) "T1"%string
              {| Sim.clock := [7000000]; Sim.puts := []; Sim.streams := [] |} eq_refl)
    as (a' & b' & w' & Hrun & Hbs & _ & Hb' & Hl & Hbytes & Htok & Hg & Hs & _).
  exists a', b', w'. rewrite Hbs, lookup_insert_eq. repeat split; assumption.
Defined.

Lemma flush_failure_keeps_batch_witness :
  ∃ w', submitBatchForID Sim.own "c1" (Examples.one_event (""%string, Some "throttled"%string))
        = Ret (Some "throttled"%string) w'
        ∧ batches w' = {[ "c1"%string := 1%positive ]}
        ∧ heap w' = {[ 1%positive := Examples.the_batch ]}.
Proof.
  destruct (flush_failure_keeps_batch Sim.own
              (Examples.one_event (""%string, Some "throttled"%string))
              "c1" 1%positive Examples.the_batch ""
              "throttled" {| Sim.clock := [7000000]; Sim.puts := []; Sim.streams := [] |}
              eq_refl eq_refl ltac:(discriminate) eq_refl)
    as (w' & Hrun & Hbs & Hheap & _).
  exists w'. repeat split; assumption.
Defined.

Lemma failed_flush_on_event_drops_event_witness :
  ∃ w', HandleLogEvent Sim.own (Examples.line "c1" 32738)
          (Examples.one_event (""%string, Some "throttled"%string)) = Ret tt w'
        ∧ batches w' = {[ "c1"%string := 1%positive ]}
        ∧ heap w' = {[ 1%positive := Examples.the_batch ]}.
Proof.
  destruct (failed_flush_on_event_drops_event Sim.own
              (Examples.one_event (""%string, Some "throttled"%string))
              (Examples.line "c1" 32738) 1%positive Examples.the_batch ""
              "throttled" {| Sim.clock := [7000000]; Sim.puts := []; Sim.streams := [] |}
              eq_refl eq_refl eq_refl ltac:(vm_compute; reflexivity) eq_refl
              ltac:(discriminate))
    as (w' & Hrun & Hbs & Hheap & _).
  exists w'. repeat split; assumption.
Defined.

(** C6, as stated, fails: the container has a batch of one event; an
    event of 32738 bytes does not fit; the submission fails; afterwards
    the registry still leads to the batch with its event, not to an empty
    batch. *)
Lemma failed_flush_on_event_keeps_full_batch :
  ∃ w', HandleLogEvent Sim.own (Examples.line "c1" 32738)
          (Examples.one_event (""%string, Some "throttled"%string)) = Ret tt w'
        ∧ batches w' !! "c1"%string = Some 1%positive
        ∧ heap w' !! 1%positive = Some Examples.the_batch
        ∧ ¬ ∃ a b, batches w' !! "c1"%string = Some a ∧ heap w' !! a = Some b
                   ∧ logs b = [].
Proof.
  eexists. split; [vm_compute; reflexivity |].
  split; [reflexivity |]. split; [reflexivity |].
  intros (a & b & Ha & Hb & Hl). vm_compute in Ha. injection Ha as <-.
  vm_compute in Hb. injection Hb as <-. discriminate Hl.
Qed.

Lemma event_without_batch_panics_witness :
  HandleLogEvent Sim.own (Examples.line "c2" 3) (Examples.one_event ("T1"%string, None))
  = Panic.
Proof.
  apply (event_without_batch_panics Sim.own (Examples.one_event ("T1"%string, None))
           (Examples.line "c2" 3)).
  reflexivity.
Defined.

(** C7, as stated, fails: an event for a container that was never
    attached makes [HandleLogEvent] panic instead of return. *)
Lemma event_before_attach_panics :
  HandleLogEvent Sim.own (Examples.line "c1" 3) (Sim.start [5000000] []) = Panic
  ∧ ¬ ∃ w', HandleLogEvent Sim.own (Examples.line "c1" 3) (Sim.start [5000000] [])
            = Ret tt w'.
Proof.
  split; [reflexivity |]. intros [w' Hw']. vm_compute in Hw'. discriminate Hw'.
Qed.

Lemma detach_removes_entry_witness :
  ∃ w', HandleDetachEvent Sim.own (Examples.container "c1")
          (Examples.one_event (""%string, Some "throttled"%string)) = Ret tt w'
        ∧ batches w' !! "c1"%string = None
        ∧ output w' = [Printed "ERROR: submitting batch for container c1: throttled"].
Proof.
  destruct (detach_removes_entry Sim.own
              (Examples.one_event (""%string, Some "throttled"%string))
              (Examples.container "c1") 1%positive (wf_one_event _) eq_refl)
    as (w' & Hrun & _ & Hnone & Hfail).
  destruct (Hfail Examples.the_batch ""%string "throttled"%string
              {| Sim.clock := [7000000]; Sim.puts := []; Sim.streams := [] |}
              eq_refl ltac:(discriminate) eq_refl) as [Hout _].
  exists w'. repeat split; assumption.
Defined.

Lemma detach_panics_iff_unregistered_witness :
  HandleDetachEvent Sim.own (Examples.container "c2")
    (Examples.one_event ("T1"%string, None)) = Panic.
Proof.
  apply (detach_panics_iff_unregistered Sim.own (Examples.one_event ("T1"%string, None))
           (Examples.container "c2") (wf_one_event _)).
  reflexivity.
Defined.

(** ** Environment strings *)

Section EnvStrings.

Lemma cut_first_None s sep : cut_first s sep = None ↔ contains s sep = false.
Proof.
  induction s as [|c rest IH]; simpl; [done |].
  case_decide; [done |].
  destruct (cut_first rest sep) as [[before after]|]; rewrite <- IH; done.
Qed.

Lemma cut_first_join k v sep :
  contains k sep = false → cut_first (k +:+ String sep v) sep = Some (k, v).
Proof.
  induction k as [|c rest IH]; simpl.
  - intros _. by rewrite decide_True.
  - case_decide; [done |]. intros Hrest. by rewrite (IH Hrest).
Qed.

Lemma cut_first_Some s sep k v :
  cut_first s sep = Some (k, v) → s = k +:+ String sep v ∧ contains k sep = false.
Proof.
  revert k. induction s as [|c rest IH]; simpl; intros k; [done |].
  case_decide as Hc.
  - intros [= <- <-]. by subst c.
  - destruct (cut_first rest sep) as [[before after]|]; [| done].
    intros [= <- <-]. destruct (IH before eq_refl) as [-> Hbefore].
    simpl. by rewrite decide_False.
Qed.

(** What one line does to the map. *)
Lemma getEnvMap_snoc l line :
  Naming.getEnvMap (l ++ [line]) =
    match cut_first line "="%char with
    | Some (key, value) => <[key := value]> (Naming.getEnvMap l)
    | None => Naming.getEnvMap l
    end.
Proof.
  unfold Naming.getEnvMap. rewrite fold_left_app. simpl. unfold SplitN_2.
  by destruct (cut_first line "=") as [[key value]|].
Qed.

Lemma getEnvMap_nil : Naming.getEnvMap [] = ∅.
Proof. reflexivity. Qed.

(** X1: every binding of the map [getEnvMap] returns comes from a line
    that is the key, the byte "=" and the value, and the key holds no
    "=": lines are cut at their first "=", and lines without one bind
    nothing. *)
Theorem getEnvMap_binding_from_line l k v :
  Naming.getEnvMap l !! k = Some v →
  (k +:+ "=" +:+ v) ∈ l ∧ contains k "="%char = false.
Proof.
  induction l as [|line l IH] using rev_ind.
  { by rewrite getEnvMap_nil, lookup_empty. }
  rewrite getEnvMap_snoc.
  destruct (cut_first line "=") as [[key value]|] eqn:Hcut.
  - rewrite lookup_insert. case_decide as Hk.
    + intros [= <-]. subst key.
      destruct (cut_first_Some _ _ _ _ Hcut) as [-> Hkey].
      split; [| done]. apply elem_of_app. right. by apply list_elem_of_singleton.
    + intros Hl. destruct (IH Hl) as [Hin Hkey]. split; [| done].
      apply elem_of_app. by left.
  - intros Hl. destruct (IH Hl) as [Hin Hkey]. split; [| done].
    apply elem_of_app. by left.
Qed.

(** X2: the value of a key is the one of the last line that binds it:
    after a line made of a key without "=", the byte "=" and a value
    (which may hold "=" itself), and further lines none of which starts
    with the key and "=", the map binds the key to that value. *)
Theorem getEnvMap_last_line_wins l1 l2 k v :
  contains k "="%char = false →
  (∀ line v', line ∈ l2 → line ≠ k +:+ "=" +:+ v') →
  Naming.getEnvMap (l1 ++ (k +:+ "=" +:+ v) :: l2) !! k = Some v.
Proof.
  intros Hk. induction l2 as [|line l2 IH] using rev_ind; intros Hl2.
  - replace (l1 ++ [k +:+ "=" +:+ v]) with (l1 ++ [k +:+ String "="%char v]) by done.
    rewrite getEnvMap_snoc, (cut_first_join k v _ Hk). apply lookup_insert_eq.
  - replace (l1 ++ (k +:+ "=" +:+ v) :: l2 ++ [line])
      with ((l1 ++ (k +:+ "=" +:+ v) :: l2) ++ [line])
      by (by rewrite <- app_assoc).
    rewrite getEnvMap_snoc.
    assert (IH' : Naming.getEnvMap (l1 ++ (k +:+ "=" +:+ v) :: l2) !! k = Some v).
    { apply IH. intros line' v' Hin. apply Hl2, elem_of_app. by left. }
    destruct (cut_first line "=") as [[key value]|] eqn:Hcut; [| done].
    rewrite lookup_insert_ne; [done |]. intros ->.
    destruct (cut_first_Some _ _ _ _ Hcut) as [Hline _].
    eapply (Hl2 line value); [| exact Hline].
    apply elem_of_app. right. by apply list_elem_of_singleton.
Qed.

Lemma getEnvMap_pairs (kvs : list (string * string)) :
  Forall (λ kv, contains kv.1 "="%char = false) kvs →
  Naming.getEnvMap ((λ kv, kv.1 +:+ "=" +:+ kv.2) <$> kvs) = list_to_map (reverse kvs).
Proof.
  induction kvs as [|[k v] kvs IH] using rev_ind; intros Hkeys; [done |].
  apply Forall_app in Hkeys as [Hkvs Hk]. rewrite Forall_singleton in Hk. simpl in Hk.
  rewrite fmap_app, reverse_app. simpl.
  replace [k +:+ "=" +:+ v] with [k +:+ String "="%char v] by done.
  rewrite getEnvMap_snoc, (cut_first_join k v _ Hk), (IH Hkvs). done.
Qed.

(** X3: writing a map as lines and reading the lines gives the map back,
    when no key of the map holds "=". *)
Theorem getEnvMap_round_trip (m : gmap string string) :
  (∀ k v, m !! k = Some v → contains k "="%char = false) →
  Naming.getEnvMap ((λ kv, kv.1 +:+ "=" +:+ kv.2) <$> map_to_list m) = m.
Proof.
  intros Hkeys. rewrite getEnvMap_pairs.
  - rewrite <- (list_to_map_to_list m) at 2.
    apply list_to_map_proper; [| apply reverse_Permutation].
    rewrite fmap_reverse, reverse_Permutation. apply NoDup_fst_map_to_list.
  - apply Forall_forall. intros [k v] Hin. apply elem_of_map_to_list in Hin.
    by eapply Hkeys.
Qed.

End EnvStrings.

Lemma getEnvMap_binding_from_line_witness :
  Naming.getEnvMap ["PATH=/bin"; "OPTS=a=b"; "EMPTY"]%string !! "OPTS"%string
    = Some "a=b"%string
  ∧ "OPTS=a=b"%string ∈ ["PATH=/bin"; "OPTS=a=b"; "EMPTY"]%string
  ∧ contains "OPTS" "="%char = false.
Proof.
  split; [reflexivity |].
  apply (getEnvMap_binding_from_line ["PATH=/bin"; "OPTS=a=b"; "EMPTY"]%string
           "OPTS" "a=b").
  reflexivity.
Defined.

Lemma getEnvMap_last_line_wins_witness :
  Naming.getEnvMap (["A=1"%string] ++ "A=2"%string :: ["B=3"%string; "A"%string])
    !! "A"%string
  = Some "2"%string.
Proof.
  apply (getEnvMap_last_line_wins ["A=1"]%string ["B=3"; "A"]%string "A" "2").
  - reflexivity.
  - intros line v' Hin Heq. subst line.
    apply elem_of_cons in Hin as [Hin|Hin]; [discriminate Hin |].
    apply list_elem_of_singleton in Hin. discriminate Hin.
Defined.

Lemma getEnvMap_round_trip_witness :
  Naming.getEnvMap
    ((λ kv, kv.1 +:+ "=" +:+ kv.2) <$>
       map_to_list ({[ "OPTS"%string := "a=b"%string ]} : gmap string string))
  = {[ "OPTS"%string := "a=b"%string ]}.
Proof.
  apply (getEnvMap_round_trip {[ "OPTS"%string := "a=b"%string ]}).
  intros k v [<- _]%lookup_singleton_Some. reflexivity.
Defined.

(** ** Names and regions *)

Lemma TrimLeft_no_leading s c rest : TrimLeft s c ≠ String c rest.
Proof.
  induction s as [|c' s IH]; simpl; [done |].
  case_decide; [done |]. intros [= -> _]. done.
Qed.

Lemma TrimLeft_strip n c :
  (∀ rest, n ≠ String c rest) → TrimLeft (String c n) c = n.
Proof.
  intros Hn. simpl. rewrite decide_True by done.
  destruct n as [|c' n]; simpl; [done |].
  case_decide; [| done]. subst. by destruct (Hn n).
Qed.

Lemma TrimRight_cutset sfx cutset :
  (∀ c, contains sfx c = true → contains cutset c = true) →
  TrimRight sfx cutset = EmptyString.
Proof.
  induction sfx as [|c sfx IH]; simpl; intros Hall; [done |].
  rewrite IH.
  - rewrite (Hall c); [done |]. by rewrite decide_True.
  - intros c' Hc'. apply Hall. case_decide; done.
Qed.

Lemma TrimRight_app_cutset s sfx cutset :
  (∀ c, contains sfx c = true → contains cutset c = true) →
  TrimRight (s +:+ sfx) cutset = TrimRight s cutset.
Proof.
  intros Hall. induction s as [|c s IH]; simpl.
  - by apply TrimRight_cutset.
  - by rewrite IH.
Qed.

Lemma TrimRight_ends_outside r c cutset :
  contains cutset c = false →
  TrimRight (r +:+ String c EmptyString) cutset = r +:+ String c EmptyString.
Proof.
  intros Hc. induction r as [|c' r IH]; simpl.
  - by rewrite Hc.
  - rewrite IH. by destruct r.
Qed.

Section Names.

Context {E T : Type} (host : Naming.Platform E T).

(** X4: when the host name is known and the container can be inspected,
    [getContext] returns a context with the container ID, the host name
    and the environment of the container as a map, and with the name of
    the container without its leading slashes: the name never starts
    with a slash, and a docker name that is a slash and a name is that
    name. *)
Theorem getContext_builds_context (w : World E) id h e1 container config e2 :
  Naming.os_Hostname host (env w) = ((h, None), e1) →
  Naming.InspectContainer host id e1 = (inl container, e2) →
  docker.Config_ container = Some config →
  ∃ context,
    Naming.getContext host id w =
      Ret (Some context, None)
          {| batches := batches w; heap := heap w; env := e2; output := output w;
             history := history w |}
    ∧ Naming.ID context = id
    ∧ Naming.Host context = h
    ∧ Naming.Env context = Naming.getEnvMap (docker.Env config)
    ∧ (∀ rest, Naming.Name context ≠ String "/"%char rest)
    ∧ (∀ n, docker.Name container = String "/"%char n →
            (∀ rest, n ≠ String "/"%char rest) → Naming.Name context = n).
Proof.
  intros Hhost Hinspect Hconfig. eexists. split.
  { unfold Naming.getContext, bind, call, ret. rewrite Hhost. simpl.
    rewrite Hinspect. simpl. rewrite Hconfig. reflexivity. }
  simpl. repeat split.
  - apply TrimLeft_no_leading.
  - intros n -> Hn. by apply TrimLeft_strip.
Qed.

Lemma renderText_uninspectable id templateText (w : World E) :
  (∀ e, ∃ err e', Naming.InspectContainer host id e = (inr err, e')) →
  ∃ w', Naming.renderText host templateText id w = Ret "logspout"%string w'
        ∧ batches w' = batches w ∧ heap w' = heap w ∧ history w' = history w.
Proof.
  intros Hdown. unfold Naming.renderText.
  destruct (Naming.template_Parse host templateText) as [tmpl|err].
  2: { eexists. split; [reflexivity | done]. }
  unfold Naming.getContext, bind at 1 2, call.
  destruct (Naming.os_Hostname host (env w)) as [[h [err|]] e1]; simpl.
  { eexists. split; [reflexivity | done]. }
  unfold bind at 1 2, call. simpl.
  destruct (Hdown e1) as (err & e2 & ->). simpl.
  eexists. split; [reflexivity | done].
Qed.

(** X5: for a container that the docker daemon cannot inspect, the log
    group name and the log stream name are both [logspout], whatever the
    templates are; the registry, the batches and the history are not
    touched. *)
Theorem names_fall_back_to_logspout id (w : World E) :
  (∀ e, ∃ err e', Naming.InspectContainer host id e = (inr err, e')) →
  ∃ w1 w2,
    Naming.getLogGroupName host id w = Ret "logspout"%string w1
    ∧ Naming.getLogStreamName host id w = Ret "logspout"%string w2
    ∧ batches w1 = batches w ∧ heap w1 = heap w ∧ history w1 = history w
    ∧ batches w2 = batches w ∧ heap w2 = heap w ∧ history w2 = history w.
Proof.
  intros Hdown.
  unfold Naming.getLogGroupName, Naming.getLogStreamName, bind, call.
  destruct (Naming.getopt host "LOGSPOUT_GROUP" Naming.DefaultLogGroup (env w))
    as [groupNameTemplate e1].
  destruct (Naming.getopt host "LOGSPOUT_STREAM" Naming.DefaultLogStream (env w))
    as [streamNameTemplate e2].
  destruct (renderText_uninspectable id groupNameTemplate
              {| batches := batches w; heap := heap w; env := e1; output := output w;
                 history := history w |} Hdown) as (w1 & -> & Hb1 & Hh1 & Hc1).
  destruct (renderText_uninspectable id streamNameTemplate
              {| batches := batches w; heap := heap w; env := e2; output := output w;
                 history := history w |} Hdown) as (w2 & -> & Hb2 & Hh2 & Hc2).
  exists w1, w2. done.
Qed.

(** X6: when [AWS_REGION] is not set, or names no region of the table,
    and the metadata service answers with an availability zone that is
    a text ending in a byte outside the cutset followed by letters of
    the cutset (a region and its zone letters), [detectAWSRegionName]
    returns the text without the letters. *)
Theorem detectAWSRegionName_from_zone (w : World E) name e1 r c letters e2 :
  Naming.getopt host "AWS_REGION" "" (env w) = (name, e1) →
  name = ""%string ∨ Naming.aws_Regions host !! name = None →
  Naming.GetMetaData host "placement/availability-zone" e1
    = (((r +:+ String c EmptyString) +:+ letters, None), e2) →
  contains "abcdefghiklmnopqrstuvwxyz" c = false →
  (∀ c', contains letters c' = true → contains "abcdefghiklmnopqrstuvwxyz" c' = true) →
  ∃ w', Naming.detectAWSRegionName host w = Ret (r +:+ String c EmptyString) w'
        ∧ env w' = e2
        ∧ batches w' = batches w ∧ heap w' = heap w ∧ history w' = history w.
Proof.
  intros Hopt Hname Hzone Hc Hletters.
  assert (Hmeta : ∀ out,
            Naming.checkEC2Metadata host
              {| batches := batches w; heap := heap w; env := e1; output := out;
                 history := history w |}
            = Ret (r +:+ String c EmptyString)
                  {| batches := batches w; heap := heap w; env := e2;
                     output := Printed ("running in EC2 availability zone "
                                        +:+ (r +:+ String c EmptyString) +:+ letters)
                               :: Printed "checking EC2 metadata..." :: out;
                     history := history w |}).
  { intros out. unfold Naming.checkEC2Metadata, bind, call, log_Print, emit, ret.
    simpl. rewrite Hzone. simpl.
    by rewrite TrimRight_app_cutset, TrimRight_ends_outside. }
  unfold Naming.detectAWSRegionName, bind at 1 2, call, log_Print, emit. simpl.
  rewrite Hopt.
  destruct Hname as [->|Hnone]; simpl.
  - rewrite Hmeta. eexists. split; [reflexivity | done].
  - destruct (0 <? String.length name)%nat.
    + unfold bind, debug, emit, log_Print. simpl. rewrite Hnone. simpl.
      rewrite Hmeta. eexists. split; [reflexivity | done].
    + rewrite Hmeta. eexists. split; [reflexivity | done].
Qed.

End Names.

Lemma getContext_builds_context_witness :
  ∃ context,
    Naming.getContext (SimHost.platform SimHost.inspect_web "" (""%string, None))
      "web" (Sim.start [] [])
    = Ret (Some context, None) (Sim.start [] [])
    ∧ Naming.Name context = "web"%string
    ∧ Naming.Env context !! "OPTS"%string = Some "a=b"%string
    ∧ Naming.Env context !! "EMPTY"%string = None.
Proof.
  destruct (getContext_builds_context
              (SimHost.platform SimHost.inspect_web "" (""%string, None))
              (Sim.start [] []) "web" "host" _ _ _ _ eq_refl eq_refl eq_refl)
    as (context & Hrun & _ & _ & Henv & _ & Hname).
  exists context. split; [exact Hrun |].
  split; [by apply Hname |].
  rewrite Henv. split; reflexivity.
Defined.

Lemma names_fall_back_to_logspout_witness :
  ∃ w1 w2,
    Naming.getLogGroupName (SimHost.platform SimHost.inspect_down "" (""%string, None))
      "web" (Sim.start [] []) = Ret "logspout"%string w1
    ∧ Naming.getLogStreamName (SimHost.platform SimHost.inspect_down "" (""%string, None))
        "web" (Sim.start [] []) = Ret "logspout"%string w2.
Proof.
  destruct (names_fall_back_to_logspout
              (SimHost.platform SimHost.inspect_down "" (""%string, None))
              "web" (Sim.start [] [])) as (w1 & w2 & H1 & H2 & _).
  - intros e. by exists "cannot connect"%string, e.
  - by exists w1, w2.
Defined.

Lemma detectAWSRegionName_from_zone_witness :
  ∃ w', Naming.detectAWSRegionName
          (SimHost.platform SimHost.inspect_down "mars-1" ("eu-west-1b"%string, None))
          (Sim.start [] [])
        = Ret "eu-west-1"%string w'.
Proof.
  destruct (detectAWSRegionName_from_zone
              (SimHost.platform SimHost.inspect_down "mars-1" ("eu-west-1b"%string, None))
              (Sim.start [] []) "mars-1" _ "eu-west-" "1"%char "b" _
              eq_refl (or_intror eq_refl) eq_refl eq_refl)
    as (w' & Hrun & _).
  - intros c'. simpl. case_decide; [subst; reflexivity | discriminate].
  - by exists w'.
Defined.

(** ** Groups and streams *)

Lemma fold_left_flag {A} (P : A → Prop) `{∀ x, Decision (P x)} (l : list A) (b : bool) :
  fold_left (λ flag x, if decide (P x) then true else flag) l b = true
  ↔ b = true ∨ ∃ x, x ∈ l ∧ P x.
Proof.
  revert b. induction l as [|x l IH]; intros b; simpl.
  - split; [by left | intros [Hb|(x & Hx & _)]; [done | by apply elem_of_nil in Hx]].
  - rewrite IH. split.
    + intros [Hb|(y & Hy & HP)].
      * case_decide; [right; exists x; split; [by left | done] | by left].
      * right. exists y. split; [by right | done].
    + intros [Hb|(y & Hy & HP)].
      * left. subst b. by case_decide.
      * apply elem_of_cons in Hy as [->|Hy].
        -- left. by rewrite decide_True.
        -- right. by exists y.
Qed.

Lemma first_token_None streamName streams :
  (∀ x, x ∈ streams → LogStreamName x ≠ streamName) →
  first_token streamName streams = None.
Proof.
  induction streams as [|x streams IH]; simpl; intros Hall; [done |].
  rewrite decide_False by (apply Hall; by left).
  apply IH. intros y Hy. apply Hall. by right.
Qed.

Lemma first_token_first streamName pre x post :
  LogStreamName x = streamName →
  (∀ y, y ∈ pre → LogStreamName y ≠ streamName) →
  first_token streamName (pre ++ x :: post) = Some (UploadSequenceToken x).
Proof.
  intros Hx. induction pre as [|y pre IH]; simpl; intros Hpre.
  - by rewrite decide_True.
  - rewrite decide_False by (apply Hpre; by left).
    apply IH. intros z Hz. apply Hpre. by right.
Qed.

Section Streams.

Context {E : Type} (svc : Services E).

(** X7: [groupExists] answers [true] exactly when the listing succeeds
    and one of the listed groups has exactly the name asked for (the
    service lists every group the name is a prefix of); when the listing
    fails it answers [false]. *)
Theorem groupExists_iff_listed (w : World E) groupName groups err e' :
  DescribeLogGroups svc groupName (env w) = ((groups, err), e') →
  ∃ r w',
    groupExists svc groupName w = Ret r w'
    ∧ (r = true ↔ err = None ∧ ∃ group, group ∈ groups ∧ LogGroupName group = groupName)
    ∧ env w' = e' ∧ batches w' = batches w ∧ heap w' = heap w
    ∧ history w' = history w.
Proof.
  intros Hlist. unfold groupExists, bind, call, log_Print, emit, ret.
  rewrite Hlist. simpl. destruct err as [err|]; simpl.
  - eexists _, _. split; [reflexivity |]. split; [| done].
    split; [done | by intros [? _]].
  - eexists _, _. split; [reflexivity |]. split; [| done].
    rewrite (fold_left_flag (λ group, LogGroupName group = groupName)).
    split; [intros [?|?]; done | intros [_ ?]; by right].
Qed.

(** X8: [createGroup] asks for the group to be created unless the
    listing succeeded and showed it, so also when the listing failed; it
    returns what the creation returned, and [nil] when it made no
    request. *)
Theorem createGroup_creates_unless_listed (w : World E) groupName groups derr e1 cerr e2 :
  DescribeLogGroups svc groupName (env w) = ((groups, derr), e1) →
  CreateLogGroup svc groupName e1 = (cerr, e2) →
  ∃ r w',
    createGroup svc groupName w = Ret r w'
    ∧ (derr = None → (∃ group, group ∈ groups ∧ LogGroupName group = groupName) →
       r = None ∧ env w' = e1)
    ∧ (is_Some derr ∨ (∀ group, group ∈ groups → LogGroupName group ≠ groupName) →
       r = cerr ∧ env w' = e2).
Proof.
  intros Hlist Hcreate.
  destruct (groupExists_iff_listed w groupName groups derr e1 Hlist)
    as (listed & w1 & Hrun & Hiff & Henv & _).
  unfold createGroup. rewrite (bind_Ret _ _ _ _ _ Hrun).
  destruct listed; simpl.
  - destruct Hiff as [[-> (group & Hin & Hname)] _]; [done |].
    eexists _, _. split; [reflexivity |]. split; [done |].
    intros [[? [=]]|Hnone]. by destruct (Hnone group Hin).
  - unfold bind, log_Print, emit, call, ret. simpl. rewrite Henv, Hcreate.
    eexists _, _. split; [by destruct cerr |].
    split; [| by destruct cerr].
    intros -> Hex. destruct Hiff as [_ Hiff]. by discriminate Hiff.
Qed.

(** X9: [getStreamToken] always returns, and changes neither the
    registry nor a batch nor the history; when it returns an error, the
    token it returns is empty. *)
Theorem getStreamToken_error_has_empty_token (w : World E) streamName groupName :
  ∃ token err w',
    getStreamToken svc streamName groupName w = Ret (token, err) w'
    ∧ (is_Some err → token = ""%string)
    ∧ batches w' = batches w ∧ heap w' = heap w ∧ history w' = history w.
Proof.
  destruct (quiet_createStream svc streamName groupName w) as ([token err] & e & out & Hrun).
  unfold getStreamToken. rewrite (bind_Ret _ _ _ _ _ Hrun). simpl.
  destruct err as [err|]; eexists _, _, _; (split; [reflexivity |]); split; done.
Qed.

(** X10: for a stream that the first listing shows, [getStreamToken]
    returns the upload sequence token of the first stream with that name
    in a second listing, and the empty token when the second listing
    does not show the stream. *)
Theorem getStreamToken_existing_stream (w w1 : World E) streamName groupName l1 e2 l2 e3 :
  createGroup svc groupName w = Ret None w1 →
  DescribeLogStreams svc groupName streamName (env w1) = ((l1, None), e2) →
  (∃ stream, stream ∈ l1 ∧ LogStreamName stream = streamName) →
  DescribeLogStreams svc groupName streamName e2 = ((l2, None), e3) →
  ∃ token w3,
    getStreamToken svc streamName groupName w = Ret (token, None) w3
    ∧ env w3 = e3
    ∧ ((∀ x, x ∈ l2 → LogStreamName x ≠ streamName) → token = ""%string)
    ∧ (∀ pre x post, l2 = pre ++ x :: post → LogStreamName x = streamName →
         (∀ y, y ∈ pre → LogStreamName y ≠ streamName) →
         token = UploadSequenceToken x).
Proof.
  intros Hgroup Hlist1 Hshown Hlist2.
  assert (Hflag : fold_left
            (λ streamExists stream,
               if decide (LogStreamName stream = streamName) then true else streamExists)
            l1 false = true).
  { apply (fold_left_flag (λ stream, LogStreamName stream = streamName)). by right. }
  exists (default ""%string (first_token streamName l2)). eexists. split.
  { unfold getStreamToken, createStream.
    unfold bind at 1 2. rewrite Hgroup. unfold bind at 1, call. rewrite Hlist1. simpl.
    rewrite Hflag. simpl. unfold bind, call. simpl. rewrite Hlist2. simpl.
    destruct (first_token streamName l2); reflexivity. }
  split; [by destruct (first_token streamName l2) |]. split.
  - intros Hnone. by rewrite first_token_None.
  - intros pre x post -> Hx Hpre. by rewrite (first_token_first _ _ _ _ Hx Hpre).
Qed.

(** X11: for a stream that the listing does not show, [getStreamToken]
    asks for the stream to be created and returns the empty token, with
    the error of the creation if there is one. *)
Theorem getStreamToken_new_stream (w w1 : World E) streamName groupName l1 e2 cerr e3 :
  createGroup svc groupName w = Ret None w1 →
  DescribeLogStreams svc groupName streamName (env w1) = ((l1, None), e2) →
  (∀ stream, stream ∈ l1 → LogStreamName stream ≠ streamName) →
  CreateLogStream svc groupName streamName e2 = (cerr, e3) →
  ∃ w3,
    getStreamToken svc streamName groupName w = Ret (""%string, cerr) w3
    ∧ env w3 = e3.
Proof.
  intros Hgroup Hlist1 Hnone Hcreate.
  assert (Hflag : fold_left
            (λ streamExists stream,
               if decide (LogStreamName stream = streamName) then true else streamExists)
            l1 false = false).
  { apply not_true_is_false. intros Htrue.
    apply (fold_left_flag (λ stream, LogStreamName stream = streamName)) in Htrue
      as [?|(x & Hx & Hname)]; [done |]. by destruct (Hnone x Hx). }
  eexists. split.
  { unfold getStreamToken, createStream.
    unfold bind at 1 2. rewrite Hgroup. unfold bind at 1, call. rewrite Hlist1. simpl.
    rewrite Hflag. simpl. unfold bind, call, debug, emit. simpl. rewrite Hcreate. simpl.
    destruct cerr; reflexivity. }
  by destruct cerr.
Qed.

End Streams.

(** ** What every execution keeps *)

Lemma int64_add_int64 a b : int64 (a + int64 b) = int64 (a + b).
Proof.
  unfold int64. f_equal.
  replace (a + ((b + 2 ^ 63) mod 2 ^ 64 - 2 ^ 63) + 2 ^ 63)
    with (a + (b + 2 ^ 63) mod 2 ^ 64) by lia.
  rewrite Z.add_mod_idemp_r by lia. f_equal. lia.
Qed.

Lemma int64_int64_add a b : int64 (int64 a + b) = int64 (a + b).
Proof. by rewrite (Z.add_comm (int64 a)), int64_add_int64, Z.add_comm. Qed.

Lemma accounted_snoc l x :
  accounted (l ++ [x]) = accounted l + (Z.of_nat (String.length (Message x)) + 28).
Proof. induction l as [|y l IH]; simpl; [lia |]. rewrite IH. lia. Qed.

Section Reachable.

Context {E : Type} (svc : Services E).

Lemma bytes_accounted_move (w w' : World E) :
  bytes_accounted w → move w w' → bytes_accounted w'.
Proof.
  intros Hacc Hmove a0 b0.
  destruct Hmove as [e out | id a b next err e out Hid Hb Hl
                    | id a b next e out Hid Hb Hl
                    | logEvent a b t e out Hid Hb Hfit
                    | id group stream token err e out Hid
                    | id e out]; cbn [heap]; try apply Hacc.
  - rewrite lookup_insert. case_decide; [| apply Hacc]. by intros [= <-].
  - rewrite lookup_insert. case_decide; [| apply Hacc].
    intros [= <-]. simpl. rewrite accounted_snoc, (Hacc a b Hb).
    unfold messageSize. by rewrite int64_add_int64, int64_int64_add.
  - rewrite lookup_insert. case_decide; [| apply Hacc]. by intros [= <-].
Qed.

(** X12: every world an execution from an empty registry reaches is well
    formed: each registered container has a batch, no batch belongs to
    two containers, and no batch mutex is held between two handlers. *)
Theorem reachable_wf e os (w : World E) :
  steps svc (NewCloudWatchManager e) os w → wf w.
Proof. apply steps_wf, wf_New. Qed.

(** X14: in every execution from an empty registry, the byte total of
    every batch is the sum, as a 64-bit integer, of the payload length
    plus 28 of each of its events. *)
Theorem reachable_bytes_accounted e os (w : World E) :
  steps svc (NewCloudWatchManager e) os w → bytes_accounted w.
Proof.
  intros Hsteps.
  assert (Hmoves : rtc move (NewCloudWatchManager e) w)
    by (eapply steps_moves; [apply wf_New | done]).
  assert (H0 : bytes_accounted (NewCloudWatchManager e)).
  { intros a b. simpl. by rewrite lookup_empty. }
  clear Hsteps. induction Hmoves; eauto using bytes_accounted_move.
Qed.

End Reachable.

(** ** Events, attachment and sweeps *)

Section Handlers.

Context {E : Type} (svc : Services E).

(** X16: an event that fits the batch of its container is appended to it
    in place, after the events that are there; no call is made, nothing
    is written to the log, and no other batch and no entry of the
    registry changes. *)
Theorem event_that_fits_is_appended (w : World E) logEvent a b t e' :
  batches w !! ID logEvent = Some a → heap w !! a = Some b → Mutex b = false →
  messageFits (Some a) logEvent w = Ret true w →
  time_Now_UnixNano svc (env w) = (t, e') →
  ∃ b' w',
    HandleLogEvent svc logEvent w = Ret tt w'
    ∧ batches w' = batches w
    ∧ heap w' = <[a := b']> (heap w)
    ∧ logs b' = logs b ++ [{| Message := Data logEvent; Timestamp := Z.quot t 1000000 |}]
    ∧ Token b' = Token b ∧ GroupName b' = GroupName b ∧ StreamName b' = StreamName b
    ∧ Mutex b' = false
    ∧ history w' = history w ∧ output w' = output w.
Proof.
  intros Hid Hb Hm Hfits Ht.
  rewrite (messageFits_run a b logEvent w Hb) in Hfits. injection Hfits as Hfits.
  eexists _, _. split; [by eapply HandleLogEvent_fits |].
  cbn [batches heap history output]. done.
Qed.

(** X17: an event that does not fit makes the whole batch go out in one
    submission, with its events in their order and its token; when the
    submission succeeds, the registry leads to a new batch that holds
    this event alone and carries the returned token, and the old batch
    is left as it was. *)
Theorem event_that_does_not_fit_starts_new_batch
    (w : World E) logEvent a b next e' t e'' :
  batches w !! ID logEvent = Some a → heap w !! a = Some b → Mutex b = false →
  messageFits (Some a) logEvent w = Ret false w →
  logs b ≠ [] →
  PutLogEvents svc (logs b) (GroupName b) (StreamName b) (Token b) (env w)
    = ((next, None), e') →
  time_Now_UnixNano svc e' = (t, e'') →
  ∃ a' b' w',
    HandleLogEvent svc logEvent w = Ret tt w'
    ∧ batches w' = <[ID logEvent := a']> (batches w)
    ∧ heap w !! a' = None
    ∧ heap w' !! a' = Some b'
    ∧ heap w' !! a = Some b
    ∧ logs b' = [{| Message := Data logEvent; Timestamp := Z.quot t 1000000 |}]
    ∧ Token b' = next ∧ GroupName b' = GroupName b ∧ StreamName b' = StreamName b
    ∧ history w' = Put (ID logEvent) (Some a) (logs b) (GroupName b) (StreamName b)
                       (Token b) next None :: history w.
Proof.
  intros Hid Hb Hm Hfits Hl Hput Ht.
  rewrite (messageFits_run a b logEvent w Hb) in Hfits. injection Hfits as Hfits.
  eexists (fresh (dom (heap w))), _, _.
  split; [by eapply HandleLogEvent_success |].
  cbn [batches heap history].
  split; [done |]. split; [apply fresh_heap |].
  split; [apply lookup_insert_eq |].
  split; [by rewrite lookup_insert_ne by (by eapply fresh_ne) |]. done.
Qed.

(** X18: an event with a payload of more than 32740 bytes that arrives
    at a batch without events never gets through: nothing is submitted,
    the handler locks the batch a second time and blocks forever. *)
Theorem event_too_large_for_empty_batch_blocks (w : World E) logEvent a b :
  batches w !! ID logEvent = Some a → heap w !! a = Some b → Mutex b = false →
  logs b = [] → bytes b = 0 →
  32740 < Z.of_nat (String.length (Data logEvent)) →
  Z.of_nat (String.length (Data logEvent)) + 28 <= max_int64 →
  HandleLogEvent svc logEvent w = Blocked.
Proof.
  intros Hid Hb Hm Hl Hbytes Hbig Hmax.
  eapply HandleLogEvent_blocked; try done.
  unfold fits, messageSize. rewrite Hbytes, Z.add_0_l.
  rewrite (int64_small (_ + 28)) by (unfold min_int64, max_int64 in *; lia).
  rewrite int64_small by (unfold min_int64, max_int64 in *; lia).
  apply andb_false_iff. right. apply Z.leb_gt. unfold maxBatchSize. lia.
Qed.





End Handlers.

Section Sweeps.

Context {E : Type} (svc : Services E).

Lemma sweep_of_empty_batches order (w : World E) :
  wf w → (∀ k, k ∈ order → is_Some (batches w !! k)) →
  (∀ id a b, batches w !! id = Some a → heap w !! a = Some b → logs b = []) →
  sweepForOldBatches svc order w = Ret tt w.
Proof.
  intros Hwf Hreg Hempty. induction order as [|id rest IH]; [done |].
  destruct (Hreg id) as [a Hid]; [by left |].
  destruct (wf_live w Hwf id a Hid) as [b Hb].
  simpl. rewrite (bind_Ret _ _ _ _ _ (submit_empty svc id a b w Hid Hb (Hempty _ _ _ Hid Hb))).
  apply IH. intros k Hk. apply Hreg. by right.
Qed.

(** X22: a sweep over a registry in which no batch holds an event makes
    no call and changes nothing. *)
Theorem sweep_of_empty_batches_changes_nothing order (w : World E) :
  wf w → enabled (Sweep order) w →
  (∀ id a b, batches w !! id = Some a → heap w !! a = Some b → logs b = []) →
  sweepForOldBatches svc order w = Ret tt w.
Proof.
  intros Hwf Hen Hempty. apply sweep_of_empty_batches; try done.
  intros k Hk. by apply (enabled_sweep_registered order w k Hen).
Qed.

Lemma submit_succeeding id a (w : World E) :
  wf w → batches w !! id = Some a →
  (∀ events g s t e, (PutLogEvents svc events g s t e).1.2 = None) →
  ∃ w1,
    submitBatchForID svc id w = Ret None w1
    ∧ wf w1
    ∧ dom (batches w1) = dom (batches w)
    ∧ flushed id w1
    ∧ ∀ k, k ≠ id → flushed k w → flushed k w1.
Proof.
  intros Hwf Hid Hok. destruct (wf_live w Hwf id a Hid) as [b Hb].
  destruct (decide (logs b = [])) as [Hl|Hl].
  { exists w. split; [by eapply submit_empty |]. split; [done |]. split; [done |].
    split; [| done]. intros a0 b0 Ha0 Hb0. by simplify_eq. }
  destruct (PutLogEvents svc (logs b) (GroupName b) (StreamName b) (Token b) (env w))
    as [[next err] e'] eqn:Hput.
  assert (err = None) as ->.
  { specialize (Hok (logs b) (GroupName b) (StreamName b) (Token b) (env w)).
    by rewrite Hput in Hok. }
  pose proof (submit_success svc id a b next e' w Hid Hb Hl Hput) as Hrun.
  eexists. split; [exact Hrun |].
  split; [eapply wf_moves; [exact Hwf | by eapply submit_moves] |].
  cbn [batches heap]. split.
  { rewrite dom_insert_L. apply subseteq_union_1_L, singleton_subseteq_l, elem_of_dom. eauto. }
  split.
  - intros a0 b0. cbn [batches heap]. rewrite lookup_insert_eq. intros [= <-].
    rewrite lookup_insert_eq. by intros [= <-].
  - intros k Hk Hflushed a0 b0. cbn [batches heap].
    rewrite lookup_insert_ne by done. intros Hk0.
    rewrite lookup_insert_ne by (intros Heq; by eapply registered_not_fresh).
    by apply Hflushed.
Qed.

Lemma sweep_succeeding order (w : World E) :
  wf w → (∀ k, k ∈ order → is_Some (batches w !! k)) →
  (∀ events g s t e, (PutLogEvents svc events g s t e).1.2 = None) →
  ∃ w',
    sweepForOldBatches svc order w = Ret tt w'
    ∧ dom (batches w') = dom (batches w)
    ∧ ∀ k, k ∈ order ∨ flushed k w → flushed k w'.
Proof.
  intros Hwf Hreg Hok. revert w Hwf Hreg.
  induction order as [|id rest IH]; intros w Hwf Hreg.
  { exists w. split; [done |]. split; [done |].
    intros k [Hk|Hk]; [by apply elem_of_nil in Hk | done]. }
  destruct (Hreg id) as [a Hid]; [by left |].
  destruct (submit_succeeding id a w Hwf Hid Hok)
    as (w1 & Hrun & Hwf1 & Hdom1 & Hid1 & Hothers).
  destruct (IH w1 Hwf1) as (w' & Hrest & Hdom & Hflushed).
  { intros k Hk. apply elem_of_dom. rewrite Hdom1. apply elem_of_dom, Hreg. by right. }
  exists w'. split; [simpl; by rewrite (bind_Ret _ _ _ _ _ Hrun) |].
  split; [by rewrite Hdom |].
  intros k Hk. apply Hflushed.
  destruct (decide (k = id)) as [->|Hne]; [by right |].
  destruct Hk as [Hk|Hk].
  - apply elem_of_cons in Hk as [?|Hk]; [done | by left].
  - right. by apply Hothers.
Qed.

(** X23: when the remote service accepts every submission, a sweep
    returns, keeps the same containers registered and leaves every one
    of them with a batch that holds no event. *)
Theorem sweep_flushes_every_batch order (w : World E) :
  wf w → enabled (Sweep order) w →
  (∀ events g s t e, (PutLogEvents svc events g s t e).1.2 = None) →
  ∃ w',
    sweepForOldBatches svc order w = Ret tt w'
    ∧ dom (batches w') = dom (batches w)
    ∧ ∀ id a b, batches w' !! id = Some a → heap w' !! a = Some b → logs b = [].
Proof.
  intros Hwf Hen Hok.
  destruct (sweep_succeeding order w Hwf) as (w' & Hrun & Hdom & Hflushed); [| done |].
  { intros k Hk. by apply (enabled_sweep_registered order w k Hen). }
  exists w'. split; [done |]. split; [done |].
  intros id a b Hid Hb. eapply (Hflushed id); [| done | done].
  left. apply (enabled_sweep_registered order w id Hen).
  apply elem_of_dom. rewrite <- Hdom. apply elem_of_dom. eauto.
Qed.

End Sweeps.

(** ** The further properties on examples *)

Lemma wf_attached : wf MoreExamples.attached.
Proof.
  split; simpl.
  - intros id a [_ <-]%lookup_singleton_Some. by rewrite lookup_singleton_eq.
  - by intros a b [_ <-]%lookup_singleton_Some.
  - intros id1 id2 a [<- _]%lookup_singleton_Some [<- _]%lookup_singleton_Some. done.
Qed.

Lemma groupExists_iff_listed_witness :
  ∃ r w',
    groupExists Sim.own "logspout-host" (Sim.start [] []) = Ret r w'
    ∧ (r = true ↔ (None : option error) = None
                  ∧ ∃ group, group ∈ [] ∧ LogGroupName group = "logspout-host"%string).
Proof.
  destruct (groupExists_iff_listed Sim.own (Sim.start [] []) "logspout-host" [] None
              {| Sim.clock := []; Sim.puts := []; Sim.streams := [] |} eq_refl)
    as (r & w' & Hrun & Hiff & _).
  by exists r, w'.
Defined.

Lemma createGroup_creates_unless_listed_witness :
  ∃ r w',
    createGroup Sim.own "logspout-host" (Sim.start [] []) = Ret r w'
    ∧ r = None
    ∧ env w' = {| Sim.clock := []; Sim.puts := []; Sim.streams := [] |}.
Proof.
  destruct (createGroup_creates_unless_listed Sim.own (Sim.start [] []) "logspout-host"
              [] None {| Sim.clock := []; Sim.puts := []; Sim.streams := [] |}
              None {| Sim.clock := []; Sim.puts := []; Sim.streams := [] |}
              eq_refl eq_refl)
    as (r & w' & Hrun & _ & Hcreated).
  exists r, w'. split; [exact Hrun |]. apply Hcreated. right.
  intros group Hin. by apply elem_of_nil in Hin.
Defined.

Lemma getStreamToken_existing_stream_witness :
  ∃ w3,
    getStreamToken Sim.own "host-c1" "logspout-host" MoreExamples.with_stream
    = Ret ("T9"%string, None) w3.
Proof.
  edestruct (getStreamToken_existing_stream Sim.own MoreExamples.with_stream)
    as (token & w3 & Hrun & _ & _ & Htoken).
  - reflexivity.
  - reflexivity.
  - eexists. split; [by apply list_elem_of_singleton | reflexivity].
  - reflexivity.
  - exists w3.
    rewrite (Htoken [] {| LogStreamName := "host-c1"; UploadSequenceToken := "T9" |} [])
      in Hrun; [exact Hrun | reflexivity | reflexivity |].
    intros y Hy. by apply elem_of_nil in Hy.
Defined.

Lemma getStreamToken_new_stream_witness :
  ∃ w3,
    getStreamToken Sim.own "host-c1" "logspout-host" (Sim.start [] [])
    = Ret (""%string, None) w3.
Proof.
  edestruct (getStreamToken_new_stream Sim.own (Sim.start [] [])) as (w3 & Hrun & _).
  - reflexivity.
  - reflexivity.
  - intros stream Hin. by apply elem_of_nil in Hin.
  - reflexivity.
  - exists w3. exact Hrun.
Defined.

Lemma steps_example :
  ∃ w, steps Sim.own (Sim.start [5000000] [("T1"%string, None)])
         [Attach (Examples.container "c1"); Emit (Examples.line "c1" 3);
          Sweep ["c1"%string]] w.
Proof.
  eexists.
  repeat (eapply steps_cons; [vm_compute; done | vm_compute; reflexivity |]).
  apply steps_nil.
Defined.

Lemma reachable_wf_witness : ∃ w : World Sim.state, wf w.
Proof.
  destruct steps_example as [w Hsteps]. exists w.
  exact (reachable_wf Sim.own _ _ w Hsteps).
Defined.

Lemma steps_count_bounded_witness : ∃ w : World Sim.state, count_bounded w.
Proof.
  destruct steps_example as [w Hsteps]. exists w.
  exact (steps_count_bounded Sim.own _ _ w Hsteps).
Defined.

Lemma reachable_bytes_accounted_witness : ∃ w : World Sim.state, bytes_accounted w.
Proof.
  destruct steps_example as [w Hsteps]. exists w.
  exact (reachable_bytes_accounted Sim.own _ _ w Hsteps).
Defined.

Lemma bytes_bounded_one_event r : bytes_bounded (Examples.one_event r).
Proof.
  intros a b. simpl. intros [_ <-]%lookup_singleton_Some. simpl.
  unfold maxBatchSize. lia.
Qed.

Lemma HandleLogEvent_keeps_byte_bound_witness :
  ∃ w', HandleLogEvent Sim.own (Examples.line "c1" 3)
          (Examples.one_event ("T1"%string, None)) = Ret tt w'
        ∧ bytes_bounded w'.
Proof.
  eexists. split; [vm_compute; reflexivity |].
  apply (HandleLogEvent_keeps_byte_bound Sim.own (Examples.line "c1" 3)
           (Examples.one_event ("T1"%string, None))).
  - apply wf_one_event.
  - apply bytes_bounded_one_event.
  - vm_compute. discriminate.
  - vm_compute. reflexivity.
Defined.

Lemma event_that_fits_is_appended_witness :
  ∃ b' w',
    HandleLogEvent Sim.own (Examples.line "c1" 3) (Examples.one_event ("T1"%string, None))
    = Ret tt w'
    ∧ logs b' = [{| Message := "aaa"; Timestamp := 5 |};
                 {| Message := "aaa"; Timestamp := 7 |}]
    ∧ heap w' = <[1%positive := b']> {[ 1%positive := Examples.the_batch ]}.
Proof.
  destruct (event_that_fits_is_appended Sim.own (Examples.one_event ("T1"%string, None))
              (Examples.line "c1" 3) 1%positive Examples.the_batch 7000000
              {| Sim.clock := []; Sim.puts := [("T1"%string, None)]; Sim.streams := [] |}
              eq_refl eq_refl eq_refl ltac:(vm_compute; reflexivity) eq_refl)
    as (b' & w' & Hrun & _ & Hheap & Hlogs & _).
  exists b', w'. exact (conj Hrun (conj Hlogs Hheap)).
Defined.

Lemma event_that_does_not_fit_starts_new_batch_witness :
  ∃ a' b' w',
    HandleLogEvent Sim.own (Examples.line "c1" 32738)
      (Examples.one_event ("T1"%string, None)) = Ret tt w'
    ∧ heap w' !! a' = Some b'
    ∧ Token b' = "T1"%string
    ∧ heap w' !! 1%positive = Some Examples.the_batch.
Proof.
  destruct (event_that_does_not_fit_starts_new_batch Sim.own
              (Examples.one_event ("T1"%string, None)) (Examples.line "c1" 32738)
              1%positive Examples.the_batch "T1"
              {| Sim.clock := [7000000]; Sim.puts := []; Sim.streams := [] |}
              7000000 {| Sim.clock := []; Sim.puts := []; Sim.streams := [] |}
              eq_refl eq_refl eq_refl ltac:(vm_compute; reflexivity)
              ltac:(discriminate) eq_refl eq_refl)
    as (a' & b' & w' & Hrun & _ & _ & Hb' & Hold & _ & Htoken & _).
  exists a', b', w'. exact (conj Hrun (conj Hb' (conj Htoken Hold))).
Defined.

Lemma event_too_large_for_empty_batch_blocks_witness :
  HandleLogEvent Sim.own (Examples.line "c1" 32741) MoreExamples.attached = Blocked.
Proof.
  apply (event_too_large_for_empty_batch_blocks Sim.own MoreExamples.attached
           (Examples.line "c1" 32741) 1%positive (Batch_literal "g" "s" "T0")).
  - reflexivity.
  - reflexivity.
  - reflexivity.
  - reflexivity.
  - reflexivity.
  - vm_compute. reflexivity.
  - vm_compute. discriminate.
Defined.




Lemma sweep_of_empty_batches_changes_nothing_witness :
  sweepForOldBatches Sim.own ["c1"%string] MoreExamples.attached
  = Ret tt MoreExamples.attached.
Proof.
  apply (sweep_of_empty_batches_changes_nothing Sim.own ["c1"%string]
           MoreExamples.attached wf_attached).
  - vm_compute. done.
  - intros id a b. simpl.
    intros [_ <-]%lookup_singleton_Some [_ <-]%lookup_singleton_Some. reflexivity.
Defined.

Lemma sweep_flushes_every_batch_witness :
  ∃ w',
    sweepForOldBatches MoreExamples.accepting ["c1"%string]
      (Examples.one_event ("T1"%string, None)) = Ret tt w'
    ∧ ∀ id a b, batches w' !! id = Some a → heap w' !! a = Some b → logs b = [].
Proof.
  destruct (sweep_flushes_every_batch MoreExamples.accepting ["c1"%string]
              (Examples.one_event ("T1"%string, None)) (wf_one_event _))
    as (w' & Hrun & _ & Hflushed).
  - vm_compute. done.
  - reflexivity.
  - by exists w'.
Defined.
